(** * Descriptor-table viewers: IDT, IO-APIC redirection table, MP table

    A shallow embedding of the three kernel modules [idt/idt.c],
    [ioapic/ioapic.c] and [mp/mp.c], and the properties of their
    locate / validate / walk / format pipelines.

    C integers are mathematical integers ([Z]) with the wrap-around of
    their C type written out; memory is a byte-valued function of the
    address; what a module does to the outside world (a [seq_printf]
    call, a [printk], a device register access, an [ioremap], and for the
    MP table the bytes it reads) is an [event] of a trace. *)

From Stdlib Require Import ZArith List String Ascii Bool Lia.
From Stdlib Require Import Init.Byte.
From Equations Require Import Equations.
Import ListNotations.

Local Open Scope Z_scope.

(* ===================================================================== *)
(** * Part I: the three modules                                           *)
(* ===================================================================== *)

(** ** C integer types *)

Module CInt.

(** Conversion to an unsigned type of [w] bits. *)
Definition wrap (w : Z) (z : Z) : Z := z mod 2 ^ w.

Definition u8 : Z -> Z := wrap 8.
Definition u16 : Z -> Z := wrap 16.
Definition u32 : Z -> Z := wrap 32.
Definition u64 : Z -> Z := wrap 64.

(** Conversion to [int] (two's complement, 32 bits). *)
Definition int (z : Z) : Z := (z + 2 ^ 31) mod 2 ^ 32 - 2 ^ 31.

(** A bit-field of [n] bits starting at bit [lo] of the word [w]. *)
Definition bitfield (w lo n : Z) : Z := Z.land (Z.shiftr w lo) (Z.ones n).

Definition ENODEV : Z := 19.

End CInt.

(** ** Byte-addressed memory (x86: little-endian) *)

Module Mem.

Definition memory := Z -> byte.

Definition load8 (m : memory) (a : Z) : Z := Z.of_N (Byte.to_N (m a)).

Definition load16 (m : memory) (a : Z) : Z :=
  Z.lor (load8 m a) (Z.shiftl (load8 m (a + 1)) 8).

Definition load32 (m : memory) (a : Z) : Z :=
  Z.lor (load16 m a) (Z.shiftl (load16 m (a + 2)) 16).

Definition load64 (m : memory) (a : Z) : Z :=
  Z.lor (load32 m a) (Z.shiftl (load32 m (a + 4)) 32).

(** A memory holding the bytes [bs] from address [base] on, zero elsewhere. *)
Definition of_list (base : Z) (bs : list byte) : memory :=
  fun a => if a <? base then x00 else nth (Z.to_nat (a - base)) bs x00.

(** The bytes of an ASCII string. *)
Fixpoint bytes_of_string (s : string) : list byte :=
  match s with
  | EmptyString => []
  | String c r => byte_of_ascii c :: bytes_of_string r
  end.

(** The [n] bytes at [a], [a+1], ... *)
Fixpoint load_bytes (m : memory) (a : Z) (n : nat) : list byte :=
  match n with
  | O => []
  | S k => m a :: load_bytes m (a + 1) k
  end.

End Mem.

(** ** The conversions of [printf] that the modules use *)

Module Printf.

Inductive arg : Type :=
| AInt (z : Z)       (* an integer argument, already converted to its C type *)
| AStr (s : string)  (* %s *)
| AChr (c : ascii).  (* %c *)

Definition digit_char (d : Z) : ascii :=
  match d with
  | 0 => "0" | 1 => "1" | 2 => "2" | 3 => "3" | 4 => "4" | 5 => "5" | 6 => "6"
  | 7 => "7" | 8 => "8" | 9 => "9" | 10 => "A" | 11 => "B" | 12 => "C"
  | 13 => "D" | 14 => "E" | _ => "F"
  end%char.

(** The [n] low-order digits of [v] in base [b], most significant first. *)
Fixpoint digits (b : Z) (n : nat) (v : Z) : string :=
  match n with
  | O => EmptyString
  | S k => digits b k (v / b) ++ String (digit_char (v mod b)) EmptyString
  end.

(** How many digits [v] needs in base [b] (at least one). *)
Fixpoint ndigits (fuel : nat) (b v : Z) : nat :=
  match fuel with
  | O => 1
  | S f => if v <? b then 1%nat else S (ndigits f b (v / b))
  end.

Definition num_len (b v : Z) : nat := ndigits (Z.to_nat (Z.log2 v)) b v.

Fixpoint spaces (n : nat) : string :=
  match n with
  | O => EmptyString
  | S k => String " "%char (spaces k)
  end.

(** A non-negative number with a minimum field width: padded on the left
    with zeros under the [0] flag, with blanks otherwise. *)
Definition pad_num (b : Z) (zero : bool) (width : nat) (v : Z) : string :=
  if zero then digits b (Nat.max width (num_len b v)) v
  else spaces (width - num_len b v) ++ digits b (num_len b v) v.

Definition signed_num (zero : bool) (width : nat) (v : Z) : string :=
  if v <? 0 then String "-"%char (pad_num 10 zero (width - 1) (- v))
  else pad_num 10 zero width v.

Definition digit_value (c : ascii) : option nat :=
  let n := nat_of_ascii c in
  if andb (48 <=? n)%nat (n <=? 57)%nat then Some (n - 48)%nat else None.

(** The scanner is either copying literal text or inside a conversion
    specification whose flag and width read so far are recorded. *)
Inductive pstate : Type :=
| Lit
| Spec (zero : bool) (width : nat).

Fixpoint format (st : pstate) (fmt : string) (args : list arg) : string :=
  match fmt with
  | EmptyString => EmptyString
  | String c rest =>
    match st with
    | Lit =>
      if Ascii.eqb c "%" then format (Spec false 0) rest args
      else String c (format Lit rest args)
    | Spec z w =>
      if andb (Ascii.eqb c "0") (Nat.eqb w 0) then format (Spec true 0) rest args
      else match digit_value c with
      | Some d => format (Spec z (10 * w + d)) rest args
      | None =>
        if Ascii.eqb c "l" then format (Spec z w) rest args
        else if Ascii.eqb c "%" then String c (format Lit rest args)
        else match args with
        | [] => format Lit rest []
        | a :: args' =>
          (match a with
           | AInt v =>
             if Ascii.eqb c "d" then signed_num z w v
             else if Ascii.eqb c "X" then pad_num 16 z w v
             else EmptyString
           | AStr s => if Ascii.eqb c "s" then s else EmptyString
           | AChr ch => if Ascii.eqb c "c" then String ch EmptyString else EmptyString
           end) ++ format Lit rest args'
        end
      end
    end
  end.

Definition sprintf (fmt : string) (args : list arg) : string :=
  format Lit fmt args.

End Printf.

(** ** What a module does to the outside world *)

Module Kernel.
Import Printf.

Definition NL : string := String (ascii_of_nat 10) EmptyString.
Definition DQ : string := String (ascii_of_nat 34) EmptyString.

Inductive loglevel : Type := KERN_INFO | KERN_ERR.

Inductive event : Type :=
| SeqPrintf (fmt : string) (args : list arg)   (* seq_printf on the report *)
| Printk (lvl : loglevel) (fmt : string)       (* mod_info / mod_err *)
| MemRead (addr : Z) (width : Z)               (* read of [width] bytes at [addr] *)
| IoRemap (phys : Z) (va : Z)                  (* ioremap_nocache(phys, PAGE_SIZE) = va *)
| IoUnmap (va : Z)                             (* iounmap(va) *)
| IoWrite8 (va : Z) (off : Z) (v : Z)          (* byte store into a device window *)
| IoRead32 (va : Z) (off : Z) (v : Z)          (* 32-bit load from a device window *)
| ProcCreate (name : string).                  (* proc_create(name, ...) *)

Definition trace := list event.

(** The report text a trace has put on the seq_file. *)
Fixpoint seq_text (t : trace) : string :=
  match t with
  | [] => EmptyString
  | SeqPrintf fmt args :: r => sprintf fmt args ++ seq_text r
  | _ :: r => seq_text r
  end.

(** The addresses a trace has read from memory. *)
Fixpoint loads (t : trace) : list Z :=
  match t with
  | [] => []
  | MemRead a _ :: r => a :: loads r
  | _ :: r => loads r
  end.

End Kernel.

(** ** idt/idt.c *)

Module Idt.
Import CInt Mem Printf Kernel.

(** The build-time layout switch [CONFIG_X86_64]. *)
Inductive config : Type := X86_64 | X86_32.

(** [struct desc_ptr]: [unsigned short size; unsigned long address]. *)
Record desc_ptr : Type := { size : Z; address : Z }.

Definition long_bits (cfg : config) : Z :=
  match cfg with X86_64 => 64 | X86_32 => 32 end.

(** Modelled from the spec: the declaration of [gate_desc] (asm/desc_defs.h)
    is not part of the repository.  The fields are those of the spec's
    GateDescriptorEntry (an offset split in three on the 64-bit layout, a
    16-bit segment selector, a type, a 2-bit privilege level, a present
    bit, an interrupt-stack-table index); their positions are those of the
    gate descriptor of the processor manual that idt.c cites. *)
Module gate_struct64.
Record t : Type := { raw_low : Z; raw_high : Z }.
Definition offset_low (e : t) : Z := bitfield (raw_low e) 0 16.
Definition segment (e : t) : Z := bitfield (raw_low e) 16 16.
Definition ist (e : t) : Z := bitfield (raw_low e) 32 3.
Definition zero0 (e : t) : Z := bitfield (raw_low e) 35 5.
Definition type (e : t) : Z := bitfield (raw_low e) 40 5.
Definition dpl (e : t) : Z := bitfield (raw_low e) 45 2.
Definition p (e : t) : Z := bitfield (raw_low e) 47 1.
Definition offset_middle (e : t) : Z := bitfield (raw_low e) 48 16.
Definition offset_high (e : t) : Z := bitfield (raw_high e) 0 32.
Definition zero1 (e : t) : Z := bitfield (raw_high e) 32 32.
(** [idt[entry]] for a table at [idt]: 16 bytes per entry. *)
Definition at_index (m : memory) (idt entry : Z) : t :=
  {| raw_low := load64 m (idt + 16 * entry);
     raw_high := load64 m (idt + 16 * entry + 8) |}.
End gate_struct64.

(** Modelled from the spec: on the 32-bit layout [gate_desc] is the
    kernel's [struct desc_struct] (asm/desc_defs.h, not part of the
    repository): two 32-bit words [a] and [b], overlaid with the
    bit-fields idt.c reads. *)
Module desc_struct.
Record t : Type := { a : Z; b : Z }.
Definition limit0 (e : t) : Z := bitfield (a e) 0 16.
Definition base0 (e : t) : Z := bitfield (a e) 16 16.
Definition base1 (e : t) : Z := bitfield (b e) 0 8.
Definition type (e : t) : Z := bitfield (b e) 8 4.
Definition s (e : t) : Z := bitfield (b e) 12 1.
Definition dpl (e : t) : Z := bitfield (b e) 13 2.
Definition p (e : t) : Z := bitfield (b e) 15 1.
Definition at_index (m : memory) (idt entry : Z) : t :=
  {| a := load32 m (idt + 8 * entry);
     b := load32 m (idt + 8 * entry + 4) |}.
End desc_struct.

(** Modelled from the spec: the gate type codes (asm/desc_defs.h, not part
    of the repository) behind the spec's Interrupt, Trap and Task. *)
Definition GATE_INTERRUPT : Z := 14.
Definition GATE_TRAP : Z := 15.
Definition GATE_TASK : Z := 5.

Record globals : Type :=
  { dtr : desc_ptr; num_idt_entries : Z; idt : Z }.

Definition IDT_ENTRY_BYTES (cfg : config) : Z :=
  match cfg with X86_64 => 16 | X86_32 => 8 end.

Section WithMachine.
Variable cfg : config.
(** The IDTR register: limit and base. *)
Variable idtr : desc_ptr.
Variable mem : memory.

(** [store_idt(&dtr)]: the 16-bit limit and the word-sized base. *)
Definition store_idt : desc_ptr :=
  {| size := u16 (size idtr); address := wrap (long_bits cfg) (address idtr) |}.

Definition idt_setup (g : globals) : globals * trace :=
  let dtr' := store_idt in
  let n := int (Z.quot (int (size dtr' + 1)) (IDT_ENTRY_BYTES cfg)) in
  ({| dtr := dtr'; num_idt_entries := n; idt := address dtr' |},
   [SeqPrintf (NL ++ "IDT    Size: %d bytes / %d entries    Virt address: 0x%lX" ++ NL)
              [AInt (int (size dtr' + 1)); AInt n; AInt (address dtr')]]).

Definition idt_print_type (type : Z) : string :=
  if type =? GATE_INTERRUPT then "interrupt"
  else if type =? GATE_TRAP then "trap     "
  else if type =? GATE_TASK then "task     "
  else "other    ".

Definition present_char (p : Z) : ascii :=
  if p =? 0 then "-"%char else "+"%char.

(** The handler offset as idt_show prints it on the 32-bit layout:
    [(idt[entry].b & 0xFFFF0000) + idt[entry].limit0], in [unsigned]. *)
Definition offset32 (e : desc_struct.t) : Z :=
  u32 (Z.land (desc_struct.b e) 0xFFFF0000 + desc_struct.limit0 e).

(** The second seq_printf of the loop body: one descriptor. *)
Definition show_entry (idt entry : Z) : event :=
  match cfg with
  | X86_64 =>
    let e := gate_struct64.at_index mem idt entry in
    SeqPrintf " %016llX%016llX %s %X   %c %X   %04X %08X%04X%04X"
      [AInt (gate_struct64.raw_high e); AInt (gate_struct64.raw_low e);
       AStr (idt_print_type (gate_struct64.type e));
       AInt (gate_struct64.dpl e);
       AChr (present_char (gate_struct64.p e));
       AInt (gate_struct64.ist e);
       AInt (gate_struct64.segment e);
       AInt (gate_struct64.offset_high e);
       AInt (gate_struct64.offset_middle e);
       AInt (gate_struct64.offset_low e)]
  | X86_32 =>
    let e := desc_struct.at_index mem idt entry in
    SeqPrintf " %08X%08X %s %X   %c %04X %08X"
      [AInt (desc_struct.b e); AInt (desc_struct.a e);
       AStr (idt_print_type (desc_struct.type e));
       AInt (desc_struct.dpl e);
       AChr (present_char (desc_struct.p e));
       AInt (desc_struct.base0 e);
       AInt (offset32 e)]
  end.

(** [for (entry = ...; entry < num_idt_entries; entry++)], from [entry] on. *)
Equations? idt_walk (idt n entry : Z) : trace by wf (Z.to_nat (n - entry)) lt :=
  idt_walk idt n entry with Z_lt_dec entry n => {
    | left _ =>
        SeqPrintf (NL ++ "0x%02X:") [AInt entry]
        :: show_entry idt entry
        :: idt_walk idt n (entry + 1);
    | right _ => [] }.
Proof. lia. Qed.

Definition idt_show (g : globals) : Z * globals * trace :=
  let '(g1, t1) := idt_setup g in
  let header :=
    match cfg with
    | X86_64 =>
      SeqPrintf (NL ++ "      HEX                              TYPE      DPL P IST SEGM OFFSET") []
    | X86_32 =>
      SeqPrintf (NL ++ "      HEX              TYPE      DPL P SEGM OFFSET") []
    end in
  (0, g1,
   t1 ++ header :: idt_walk (idt g1) (num_idt_entries g1) 0
      ++ [SeqPrintf (NL ++ NL) []]).

End WithMachine.

End Idt.

(** ** ioapic/ioapic.c *)

Module Ioapic.
Import CInt Printf Kernel.

Definition IOAPIC_REG_ID : Z := 0x00.
Definition IOAPIC_REG_VER : Z := 0x01.
Definition IOAPIC_REG_ARB : Z := 0x02.

Definition IOAPIC_REG_ID_SHIFT_ID : Z := 24.
Definition IOAPIC_REG_ID_MASK_ID : Z := 0x0F000000.
Definition IOAPIC_REG_VER_SHIFT_VER : Z := 0.
Definition IOAPIC_REG_VER_MASK_VER : Z := 0x000000FF.
Definition IOAPIC_REG_VER_SHIFT_MAX_ENTRIES : Z := 16.
Definition IOAPIC_REG_VER_MASK_MAX_ENTRIES : Z := 0x00FF0000.

(** Byte offsets of the members of [struct ioapic]. *)
Definition OFF_INDEX : Z := 0x00.
Definition OFF_DATA : Z := 0x10.
Definition OFF_EOI : Z := 0x40.

Definition PAGE_SIZE : Z := 4096.

(** The module's globals. *)
Record globals : Type :=
  { ioapic_addr : Z; id : Z; version : Z; max_entries : Z }.

(** The globals, the live [ioremap] windows (virtual address and the
    physical base behind it), the next free virtual address, the content
    of the index register of the controller at each physical base, and
    the trace so far. *)
Record world : Type :=
  { vars : globals;
    mapped : list (Z * Z);
    brk : Z;
    index_reg : Z -> Z;
    log : trace }.

Definition set_vars (g : globals) (w : world) : world :=
  {| vars := g; mapped := mapped w; brk := brk w;
     index_reg := index_reg w; log := log w |}.

(** Computations over the world; [None] is a fault (an access through an
    address that no live window covers). *)
Definition M (A : Type) : Type := world -> option (A * world).

Definition ret {A} (a : A) : M A := fun w => Some (a, w).

Definition bind {A B} (m : M A) (k : A -> M B) : M B :=
  fun w => match m w with
           | Some (a, w') => k a w'
           | None => None
           end.

Definition emit (e : event) : M unit :=
  fun w => Some (tt, {| vars := vars w; mapped := mapped w; brk := brk w;
                        index_reg := index_reg w; log := log w ++ [e] |}).

Definition read_vars : M globals := fun w => Some (vars w, w).

Definition write_vars (g : globals) : M unit := fun w => Some (tt, set_vars g w).

Declare Scope io_scope.
Delimit Scope io_scope with io.
Notation "x <- m ;; k" := (bind m (fun x => k))
  (at level 61, m at next level, right associativity) : io_scope.
Notation "m ;; k" := (bind m (fun _ => k))
  (at level 61, right associativity) : io_scope.
Local Open Scope io_scope.

Definition seq_printf (fmt : string) (args : list arg) : M unit :=
  emit (SeqPrintf fmt args).
Definition mod_info (fmt : string) : M unit := emit (Printk KERN_INFO fmt).
Definition mod_err (fmt : string) : M unit := emit (Printk KERN_ERR fmt).

Fixpoint lookup (va : Z) (l : list (Z * Z)) : option Z :=
  match l with
  | [] => None
  | (v, p) :: r => if v =? va then Some p else lookup va r
  end.

Fixpoint remove_window (va : Z) (l : list (Z * Z)) : list (Z * Z) :=
  match l with
  | [] => []
  | (v, p) :: r => if v =? va then r else (v, p) :: remove_window va r
  end.

(** [ioremap_nocache(phys, PAGE_SIZE)]: a fresh window. *)
Definition ioremap_nocache (phys : Z) : M Z :=
  fun w =>
    let va := brk w in
    Some (va, {| vars := vars w; mapped := (va, phys) :: mapped w;
                 brk := va + PAGE_SIZE; index_reg := index_reg w;
                 log := log w ++ [IoRemap phys va] |}).

Definition iounmap (va : Z) : M unit :=
  fun w =>
    Some (tt, {| vars := vars w; mapped := remove_window va (mapped w);
                 brk := brk w; index_reg := index_reg w;
                 log := log w ++ [IoUnmap va] |}).

Section WithHardware.
(** What the data register of the controller at a physical base shows
    for each value of its index register. *)
Variable hw : Z -> Z -> Z.
(** Module parameters. *)
Variable ioapic0_base : Z.
Variable ioapic1_base : Z.

(** [ioapic->index = reg] *)
Definition store_index (va : Z) (reg : Z) : M unit :=
  fun w =>
    match lookup va (mapped w) with
    | None => None
    | Some phys =>
      Some (tt, {| vars := vars w; mapped := mapped w; brk := brk w;
                   index_reg := fun p => if p =? phys then reg else index_reg w p;
                   log := log w ++ [IoWrite8 va OFF_INDEX reg] |})
    end.

(** [ioapic->data] *)
Definition load_data (va : Z) : M Z :=
  fun w =>
    match lookup va (mapped w) with
    | None => None
    | Some phys =>
      let v := u32 (hw phys (index_reg w phys)) in
      Some (v, {| vars := vars w; mapped := mapped w; brk := brk w;
                  index_reg := index_reg w;
                  log := log w ++ [IoRead32 va OFF_DATA v] |})
    end.

(** The parameter [reg] is a [uint8_t]: the argument is converted. *)
Definition ioapic_read (ioapic_addr : Z) (reg : Z) : M Z :=
  store_index ioapic_addr (u8 reg) ;;
  load_data ioapic_addr.

Definition ioapic_setup (ioapic_base : Z) : M Z :=
  va <- ioremap_nocache (u32 ioapic_base) ;;
  g <- read_vars ;;
  write_vars {| ioapic_addr := va; id := id g; version := version g;
                max_entries := max_entries g |} ;;
  reg_id <- ioapic_read va IOAPIC_REG_ID ;;
  reg_ver <- ioapic_read va IOAPIC_REG_VER ;;
  if negb (Z.land reg_id (Z.lnot IOAPIC_REG_ID_MASK_ID) =? 0) then
    mod_err "Bad data in IO-APIC ID register: %X. Probably wrong IO-APIC base address." ;;
    ret (- ENODEV)
  else if negb (Z.land (Z.land reg_ver (Z.lnot IOAPIC_REG_VER_MASK_VER))
                       (Z.lnot IOAPIC_REG_VER_MASK_MAX_ENTRIES) =? 0) then
    mod_err "Bad data in IO-APIC VER register: %X. Probably wrong IO-APIC base address." ;;
    ret (- ENODEV)
  else
    write_vars
      {| ioapic_addr := va;
         id := Z.shiftr (Z.land reg_id IOAPIC_REG_ID_MASK_ID) IOAPIC_REG_ID_SHIFT_ID;
         version := Z.shiftr (Z.land reg_ver IOAPIC_REG_VER_MASK_VER)
                             IOAPIC_REG_VER_SHIFT_VER;
         max_entries := Z.shiftr (Z.land reg_ver IOAPIC_REG_VER_MASK_MAX_ENTRIES)
                                 IOAPIC_REG_VER_SHIFT_MAX_ENTRIES |} ;;
    ret 0.

(** The body of the loop of ioapic_show for one pin. *)
Definition show_pin (ioapic_addr pin : Z) : M unit :=
  word_lo <- ioapic_read ioapic_addr (0x10 + 2 * pin) ;;
  word_hi <- ioapic_read ioapic_addr (0x11 + 2 * pin) ;;
  (if Z.rem pin 3 =? 0 then seq_printf NL [] else seq_printf "    " []) ;;
  seq_printf "%03d: %08X%08X" [AInt pin; AInt word_hi; AInt word_lo].

(** [for (pin = ...; pin <= max_entries; pin++)], from [pin] on.  The
    body writes neither [ioapic_addr] nor [max_entries], so the loop
    takes the two globals by value.  [pin] is a non-negative [int] and
    [max_entries] a [uint32_t]: the comparison, made in [unsigned], is
    the comparison of the two numbers. *)
Equations? ioapic_walk (ioapic_addr max_entries pin : Z) : M unit
  by wf (Z.to_nat (max_entries + 1 - pin)) lt :=
  ioapic_walk ioapic_addr max_entries pin with Z_le_dec pin max_entries => {
    | left _ =>
        show_pin ioapic_addr pin ;;
        ioapic_walk ioapic_addr max_entries (pin + 1);
    | right _ => ret tt }.
Proof. lia. Qed.

Definition ioapic_show : M Z :=
  g <- read_vars ;;
  seq_printf (NL ++ "IO-APIC    ID %X    Version: %02X    Max entries: %d" ++ NL)
             [AInt (id g); AInt (version g); AInt (int (u32 (max_entries g + 1)))] ;;
  ioapic_walk (ioapic_addr g) (max_entries g) 0 ;;
  seq_printf (NL ++ NL) [] ;;
  iounmap (ioapic_addr g) ;;
  ret 0.

(** Modelled from the spec: [single_open] and [seq_read]
    (linux/seq_file.h) belong to the host and are not part of the
    repository.  By the spec's contract one open is one pass: the
    [show] callback registered at open runs once, start to finish,
    and its text is what the reader gets. *)
Definition single_open (show : M Z) : M Z := show.

Definition ioapic0_open : M Z :=
  ioapic_setup ioapic0_base ;;
  single_open ioapic_show.

Definition ioapic1_open : M Z :=
  ioapic_setup ioapic1_base ;;
  single_open ioapic_show.

Definition proc_create (name : string) : M unit := emit (ProcCreate name).

Definition ioapic_init : M Z :=
  mod_info "Loading." ;;
  r0 <- ioapic_setup ioapic0_base ;;
  if r0 <? 0 then ret r0 else
  r1 <- (if negb (ioapic1_base =? 0) then
           mod_info "ioapic1_base: %lX." ;;
           ioapic_setup ioapic1_base
         else ret r0) ;;
  if r1 <? 0 then ret r1 else
  proc_create "ioapic0" ;;
  (if negb (ioapic1_base =? 0) then proc_create "ioapic1" else ret tt) ;;
  ret 0.

End WithHardware.

(** The world when the module is loaded: zeroed globals, nothing mapped. *)
Definition boot : world :=
  {| vars := {| ioapic_addr := 0; id := 0; version := 0; max_entries := 0 |};
     mapped := []; brk := 0xffffc90000000000; index_reg := fun _ => 0; log := [] |}.

End Ioapic.

(** ** mp/mp.c *)

Module Mp.
Import CInt Mem Printf Kernel.

Definition MPFP_SIGNATURE : Z := 0x5f504d5f.
Definition MPCT_SIGNATURE : Z := 0x504d4350.

Definition MPFP_SIGNATURE_BYTES : Z := 4.
Definition MPCT_SIGNATURE_BYTES : Z := 4.

Definition MPCT_ENTRY_TYPE_PROCESSOR : Z := 0.
Definition MPCT_ENTRY_BYTES_PROCESSOR : Z := 20.
Definition MPCT_ENTRY_BYTES_DEFAULT : Z := 8.

Definition MPFP_STRUCTURE_BYTES : Z := 16.
Definition MPCT_HEADER_BYTES : Z := 44.

(** The module's globals. *)
Record globals : Type :=
  { base_mpct_bytes : Z; mpfp : Z; mpct : Z }.

Section WithMemory.
(** The kernel's view of physical memory. *)
Variable phys_to_virt : Z -> Z.
Variable mem : memory.

(** The search loop of mp_setup,
    [for (phys_addr = ...; phys_addr <= last; phys_addr += 16)], from
    [phys_addr] on: the values of [phys_addr] and [mpfp] when the loop
    is left.  mp_setup runs it with [last = 0xFFFFF]. *)
Equations? mp_scan (last mpfp phys_addr : Z) : Z * Z
  by wf (Z.to_nat (last + 1 - phys_addr)) lt :=
  mp_scan last mpfp phys_addr with Z_le_dec phys_addr last => {
    | left _ =>
        if load32 mem (phys_to_virt phys_addr) =? MPFP_SIGNATURE
        then (phys_addr, phys_to_virt phys_addr)
        else mp_scan last (phys_to_virt phys_addr) (phys_addr + 16);
    | right _ => (phys_addr, mpfp) }.
Proof. lia. Qed.

Definition mp_setup (g : globals) : Z * globals * trace :=
  let '(phys_addr, mpfp1) := mp_scan 0xFFFFF (mpfp g) 0xF0000 in
  if phys_addr =? 0x100000 then
    (- ENODEV,
     {| base_mpct_bytes := base_mpct_bytes g; mpfp := mpfp1; mpct := mpct g |},
     [Printk KERN_ERR "MP Floating Pointer Structure wasn't found."])
  else
    let t1 := [Printk KERN_INFO ("MP Floating Pointer Structure physical address: %pap " ++ NL)] in
    let phys_addr := load32 mem (mpfp1 + MPFP_SIGNATURE_BYTES) in
    let mpct1 := phys_to_virt phys_addr in
    if negb (load32 mem mpct1 =? MPCT_SIGNATURE) then
      (- ENODEV,
       {| base_mpct_bytes := base_mpct_bytes g; mpfp := mpfp1; mpct := mpct1 |},
       t1 ++ [Printk KERN_ERR
                ("MP Configuration Table signature doesn't match "
                   ++ DQ ++ "PCMP" ++ DQ ++ " string.")])
    else
      let t2 := [Printk KERN_INFO ("MP Configuration Table Header physical address: %pap " ++ NL)] in
      let size := u16 (load32 mem (mpct1 + MPCT_SIGNATURE_BYTES)) in
      (0,
       {| base_mpct_bytes := size; mpfp := mpfp1; mpct := mpct1 |},
       t1 ++ t2 ++ [Printk KERN_INFO ("Base MP Configuration Table size: %d bytes" ++ NL)]).

(** [ptr[i]]: one byte read through a pointer. *)
Definition peek (ptr i : Z) : Z := load8 mem (ptr + i).

(** The two fixed-size dumps of mp_show share one loop shape:
    [for (pos = ...; pos < limit; pos++)], four bytes to a line. *)
Equations? dump_block (ptr limit pos : Z) : trace
  by wf (Z.to_nat (limit - pos)) lt :=
  dump_block ptr limit pos with Z_lt_dec pos limit => {
    | left _ =>
        (if Z.rem pos 4 =? 0 then [SeqPrintf (NL ++ "0x%03X:") [AInt pos]] else [])
        ++ MemRead (ptr + pos) 1
        :: SeqPrintf " %02X" [AInt (peek ptr pos)]
        :: dump_block ptr limit (pos + 1);
    | right _ => [] }.
Proof. lia. Qed.

(** [for (byte = ...; byte < entry_bytes; byte++)]: the bytes of one entry. *)
Equations? dump_entry (mpct pos entry_bytes byte : Z) : trace
  by wf (Z.to_nat (entry_bytes - byte)) lt :=
  dump_entry mpct pos entry_bytes byte with Z_lt_dec byte entry_bytes => {
    | left _ =>
        MemRead (mpct + (pos + byte)) 1
        :: SeqPrintf " %02X" [AInt (peek mpct (pos + byte))]
        :: dump_entry mpct pos entry_bytes (byte + 1);
    | right _ => [] }.
Proof. lia. Qed.

Definition entry_bytes_at (mpct pos : Z) : Z :=
  if peek mpct pos =? MPCT_ENTRY_TYPE_PROCESSOR
  then MPCT_ENTRY_BYTES_PROCESSOR
  else MPCT_ENTRY_BYTES_DEFAULT.

(** [for (pos = ...; pos < base_mpct_bytes; )], from [pos] on.  The body
    writes no global, so the loop takes [mpct] and [base_mpct_bytes]
    by value. *)
Equations? mp_walk (mpct base_mpct_bytes pos : Z) : trace
  by wf (Z.to_nat (base_mpct_bytes - pos)) lt :=
  mp_walk mpct base_mpct_bytes pos with Z_lt_dec pos base_mpct_bytes => {
    | left _ =>
        SeqPrintf (NL ++ "0x%03X:") [AInt pos]
        :: MemRead (mpct + pos) 1
        :: dump_entry mpct pos (entry_bytes_at mpct pos) 0
        ++ mp_walk mpct base_mpct_bytes (pos + entry_bytes_at mpct pos);
    | right _ => [] }.
Proof. unfold entry_bytes_at, MPCT_ENTRY_BYTES_PROCESSOR, MPCT_ENTRY_BYTES_DEFAULT.
       destruct (_ =? _); lia. Qed.

Definition mp_show (g : globals) : Z * trace :=
  (0,
   SeqPrintf (NL ++ "MP Floating Pointer Structure:" ++ NL) []
   :: dump_block (mpfp g) MPFP_STRUCTURE_BYTES 0
   ++ SeqPrintf NL []
   :: SeqPrintf (NL ++ "MP Configuration Table Header:" ++ NL) []
   :: dump_block (mpct g) MPCT_HEADER_BYTES 0
   ++ SeqPrintf NL []
   :: SeqPrintf (NL ++ "Base MP Configuration Table:" ++ NL) []
   :: mp_walk (mpct g) (base_mpct_bytes g) MPCT_HEADER_BYTES
   ++ [SeqPrintf NL []]).

Definition mp_init (g : globals) : Z * globals * trace :=
  let '(ret, g1, t) := mp_setup g in
  if ret <? 0 then (ret, g1, Printk KERN_INFO "Loading." :: t)
  else (0, g1, Printk KERN_INFO "Loading." :: t ++ [ProcCreate "mp"]).

End WithMemory.

(** The globals when the module is loaded. *)
Definition boot : globals := {| base_mpct_bytes := 0; mpfp := 0; mpct := 0 |}.

End Mp.

(** ** Unloading the modules *)

Module Unload.
Import Kernel.

(** What a module's exit function does. *)
Inductive exit_event : Type :=
| Unloading                          (* mod_info("Unloading.") *)
| RemoveProcEntry (name : string).   (* remove_proc_entry(name, NULL) *)

Section WithParameters.
Variable ioapic1_base : Z.

Definition ioapic_exit : list exit_event :=
Unloading
:: RemoveProcEntry "ioapic0"
:: (if negb (ioapic1_base =? 0) then [RemoveProcEntry "ioapic1"] else []).

End WithParameters.

(** The names an exit function removes, and the names a trace created. *)
Fixpoint removed (t : list exit_event) : list string :=
match t with
| [] => []
| RemoveProcEntry n :: r => n :: removed r
| _ :: r => removed r
end.

Fixpoint created (t : trace) : list string :=
match t with
| [] => []
| ProcCreate n :: r => n :: created r
| _ :: r => created r
end.

End Unload.

(* ===================================================================== *)
(** * Part II: the vocabulary of the specification                        *)
(* ===================================================================== *)

Module Util.

(** [n] consecutive integers from [start] on. *)
Fixpoint zrange (start : Z) (n : nat) : list Z :=
  match n with
  | O => []
  | S k => start :: zrange (start + 1) k
  end.

End Util.

Module IdtSpec.
Import CInt Mem Printf Kernel Idt.

(** The handler offset as the concatenation of the split fields of the
    entry: high, middle, low on the 64-bit layout; the upper half of the
    second word and the lower half of the first on the 32-bit layout. *)
Definition handler_offset (cfg : config) (m : memory) (idt entry : Z) : Z :=
  match cfg with
  | X86_64 =>
    let e := gate_struct64.at_index m idt entry in
    Z.lor (Z.shiftl (gate_struct64.offset_high e) 32)
          (Z.lor (Z.shiftl (gate_struct64.offset_middle e) 16)
                 (gate_struct64.offset_low e))
  | X86_32 =>
    let e := desc_struct.at_index m idt entry in
    Z.lor (Z.shiftl (bitfield (desc_struct.b e) 16 16) 16)
          (bitfield (desc_struct.a e) 0 16)
  end.

(** The number of hexadecimal digits of an offset. *)
Definition offset_digits (cfg : config) : nat :=
  match cfg with X86_64 => 16%nat | X86_32 => 8%nat end.

(** What the line of an entry shows before the offset. *)
Definition line_prefix (cfg : config) (m : memory) (idt entry : Z) : string :=
  match cfg with
  | X86_64 =>
    let e := gate_struct64.at_index m idt entry in
    sprintf " %016llX%016llX %s %X   %c %X   %04X "
      [AInt (gate_struct64.raw_high e); AInt (gate_struct64.raw_low e);
       AStr (idt_print_type (gate_struct64.type e));
       AInt (gate_struct64.dpl e);
       AChr (present_char (gate_struct64.p e));
       AInt (gate_struct64.ist e);
       AInt (gate_struct64.segment e)]
  | X86_32 =>
    let e := desc_struct.at_index m idt entry in
    sprintf " %08X%08X %s %X   %c %04X "
      [AInt (desc_struct.b e); AInt (desc_struct.a e);
       AStr (idt_print_type (desc_struct.type e));
       AInt (desc_struct.dpl e);
       AChr (present_char (desc_struct.p e));
       AInt (desc_struct.base0 e)]
  end.

End IdtSpec.

Module IoapicSpec.
Import CInt Printf Kernel Ioapic Util.

(** The pins of a table whose version register announces [max_entries]. *)
Definition pins (max_entries : Z) : list Z := zrange 0 (Z.to_nat (max_entries + 1)).

(** What the walker does for one pin, when it reads the registers
    [reg_lo] and [reg_hi] of the controller at [phys] through the window
    at [va]. *)
Definition pin_events (hw : Z -> Z -> Z) (phys va : Z) (reg_lo reg_hi pin : Z) : trace :=
  let word_lo := u32 (hw phys reg_lo) in
  let word_hi := u32 (hw phys reg_hi) in
  [IoWrite8 va OFF_INDEX reg_lo; IoRead32 va OFF_DATA word_lo;
   IoWrite8 va OFF_INDEX reg_hi; IoRead32 va OFF_DATA word_hi;
   SeqPrintf (if Z.rem pin 3 =? 0 then NL else "    ") [];
   SeqPrintf "%03d: %08X%08X" [AInt pin; AInt word_hi; AInt word_lo]].

(** The logical registers a trace selects through the index register. *)
Fixpoint index_writes (t : trace) : list Z :=
  match t with
  | [] => []
  | IoWrite8 _ off v :: r =>
    if off =? OFF_INDEX then v :: index_writes r else index_writes r
  | _ :: r => index_writes r
  end.

(** The defined fields of the two registers read at setup. *)
Definition id_field (i : Z) : Prop := 24 <= i <= 27.
Definition ver_field (i : Z) : Prop := 0 <= i <= 7 \/ 16 <= i <= 23.

Definition has_bit_outside (field : Z -> Prop) (v : Z) : Prop :=
  exists i, 0 <= i /\ Z.testbit v i = true /\ ~ field i.

(** The report of one open on a table of [max_entries g] + 1 pins, when
    pin [p] is read through the logical registers [reg_lo p] and
    [reg_hi p]. *)
Definition show_trace (hw : Z -> Z -> Z) (phys : Z) (g : globals)
           (reg_lo reg_hi : Z -> Z) : trace :=
  SeqPrintf (NL ++ "IO-APIC    ID %X    Version: %02X    Max entries: %d" ++ NL)
            [AInt (id g); AInt (version g); AInt (int (u32 (max_entries g + 1)))]
  :: flat_map (fun p => pin_events hw phys (ioapic_addr g) (reg_lo p) (reg_hi p) p)
              (pins (max_entries g))
  ++ [SeqPrintf (NL ++ NL) []; IoUnmap (ioapic_addr g)].

(** "After a successful setup, the walker reads pin [p] through the
    logical registers [reg_lo p] and [reg_hi p]." *)
Definition walks_through (reg_lo reg_hi : Z -> Z)
           (hw : Z -> Z -> Z) (base : Z) (w : world) : Prop :=
  forall w1, ioapic_setup hw base w = Some (0, w1) ->
  exists w2, ioapic_show hw w1 = Some (0, w2)
             /\ log w2 = log w1 ++ show_trace hw (u32 base) (vars w1) reg_lo reg_hi.

(** One world differs from another only by what was appended to the log
    (and by the index registers, which no result depends on). *)
Definition extends (w w' : world) (t : trace) : Prop :=
  vars w' = vars w /\ mapped w' = mapped w /\ brk w' = brk w /\ log w' = log w ++ t.

(** The world ioapic_setup leaves when run right after the module is loaded. *)
Definition world_after_setup (hw : Z -> Z -> Z) (base : Z) : world :=
  match ioapic_setup hw base boot with
  | Some (_, w1) => w1
  | None => boot
  end.

(** The usual controller: 24 redirection entries, version 0x11. *)
Definition hw_24 : Z -> Z -> Z :=
  fun _ reg => if reg =? IOAPIC_REG_VER then 0x00170011 else 0.

(** A controller that announces 121 redirection entries. *)
Definition hw_121 : Z -> Z -> Z :=
  fun _ reg => if reg =? IOAPIC_REG_VER then 0x00780011 else 0.

(** A window onto something that is not an IO-APIC: every bit reads 1. *)
Definition hw_ones : Z -> Z -> Z := fun _ _ => 0xFFFFFFFF.

End IoapicSpec.

Module MpSpec.
Import CInt Mem Printf Kernel Mp Util.

(** The addresses the search visits: [0xF0000] to [0xFFFFF] in steps of 16. *)
Definition candidate (a : Z) : Prop :=
  exists k, 0 <= k < 4096 /\ a = 0xF0000 + 16 * k.

(** The four bytes at [ptr] spell [sig]. *)
Definition has_signature (mem : memory) (ptr : Z) (sig : string) : Prop :=
  load_bytes mem ptr 4 = bytes_of_string sig.

Section Scan.
Variable phys_to_virt : Z -> Z.
Variable mem : memory.

Definition no_match : Prop :=
  forall a, candidate a -> ~ has_signature mem (phys_to_virt a) "_MP_".

Definition first_match (a : Z) : Prop :=
  candidate a
  /\ has_signature mem (phys_to_virt a) "_MP_"
  /\ forall a', candidate a' -> a' < a -> ~ has_signature mem (phys_to_virt a') "_MP_".

(** The second table, as the structure matched at [a] points to it. *)
Definition second_table (a : Z) : Z :=
  phys_to_virt (load32 mem (phys_to_virt a + 4)).

(** What the search loop has established when it is left, having been
    entered at [p]. *)
Definition scan_post (p : Z) (r : Z * Z) : Prop :=
  (fst r = 0x100000
   /\ forall a, candidate a -> p <= a -> ~ has_signature mem (phys_to_virt a) "_MP_")
  \/ (candidate (fst r) /\ p <= fst r
      /\ has_signature mem (phys_to_virt (fst r)) "_MP_"
      /\ snd r = phys_to_virt (fst r)
      /\ forall a, candidate a -> p <= a < fst r ->
                   ~ has_signature mem (phys_to_virt a) "_MP_").
End Scan.

(** The two ways mp_setup fails. *)
Definition not_found (r : Z * globals * trace) : Prop :=
  fst (fst r) = - ENODEV
  /\ snd r = [Printk KERN_ERR "MP Floating Pointer Structure wasn't found."].

Definition invalid_signature (r : Z * globals * trace) : Prop :=
  fst (fst r) = - ENODEV
  /\ exists t,
      snd r = t ++ [Printk KERN_ERR ("MP Configuration Table signature doesn't match "
                                       ++ DQ ++ "PCMP" ++ DQ ++ " string.")].

(** The walk over the base table as the specification words it: from
    [pos], while [pos] is below [size], an entry of 20 bytes if its first
    byte is 0 and of 8 bytes otherwise, then on from the byte after it. *)
Inductive walks (mem : memory) (mpct size : Z) : Z -> list (Z * Z) -> Prop :=
| walks_stop pos :
    size <= pos -> walks mem mpct size pos []
| walks_step pos n rest :
    pos < size ->
    n = (if load8 mem (mpct + pos) =? 0 then 20 else 8) ->
    walks mem mpct size (pos + n) rest ->
    walks mem mpct size pos ((pos, n) :: rest).

(** What the walker does for the entry of [snd e] bytes at [fst e]: the
    position, the read of the discriminator, then each byte read and
    printed. *)
Definition entry_events (mem : memory) (mpct : Z) (e : Z * Z) : trace :=
  SeqPrintf (NL ++ "0x%03X:") [AInt (fst e)]
  :: MemRead (mpct + fst e) 1
  :: flat_map (fun k => [MemRead (mpct + (fst e + k)) 1;
                         SeqPrintf " %02X" [AInt (load8 mem (mpct + (fst e + k)))]])
              (zrange 0 (Z.to_nat (snd e))).

(** A firmware image: the floating pointer structure at [0xF0000] points
    at a configuration table at [0xF0010] whose base table is 72 bytes:
    the header, a processor entry and a bus entry. *)
Definition rom : memory :=
  of_list 0xF0000
    (bytes_of_string "_MP_" ++ [x10; x00; x0f; x00] ++ repeat x00 8
     ++ bytes_of_string "PCMP" ++ [x48; x00] ++ repeat x00 38
     ++ x00 :: repeat x11 19
     ++ x01 :: repeat x22 7).

Definition identity_map : Z -> Z := fun a => a.

(** The globals of a table that is all header. *)
Definition header_only : globals :=
  {| base_mpct_bytes := 44; mpfp := 0xF0000; mpct := 0xF0010 |}.

End MpSpec.

(** ** Further vocabulary: the interrupt descriptor table *)

Module IdtExtra.
Import CInt Mem Printf Kernel Idt Util.

(** The number of entries of the table the IDTR register describes. *)
Definition entry_count (cfg : config) (idtr : desc_ptr) : Z :=
(u16 (size idtr) + 1) / IDT_ENTRY_BYTES cfg.

(** The two seq_printf calls of idt_show for the entry [e]. *)
Definition entry_lines (cfg : config) (m : memory) (idt e : Z) : trace :=
[SeqPrintf (NL ++ "0x%02X:") [AInt e]; show_entry cfg m idt e].

(** The column titles. *)
Definition column_titles (cfg : config) : event :=
match cfg with
| X86_64 =>
  SeqPrintf (NL ++ "      HEX                              TYPE      DPL P IST SEGM OFFSET") []
| X86_32 =>
  SeqPrintf (NL ++ "      HEX              TYPE      DPL P SEGM OFFSET") []
end.

(** The width of a descriptor line. *)
Definition line_width (cfg : config) : nat :=
match cfg with X86_64 => 75%nat | X86_32 => 47%nat end.

End IdtExtra.

(** ** Further vocabulary: the IO-APIC *)

Module IoapicExtra.
Import CInt Printf Kernel Ioapic Util IoapicSpec.

(** The three decoded fields fit their widths. *)
Definition fields_in_range (g : globals) : Prop :=
0 <= id g < 16 /\ 0 <= version g < 256 /\ 0 <= max_entries g < 256.


(** The two registers of the controller at [base] pass the reserved-bit test. *)
Definition valid_registers (hw : Z -> Z -> Z) (base : Z) : Prop :=
~ has_bit_outside id_field (u32 (hw (u32 base) IOAPIC_REG_ID))
/\ ~ has_bit_outside ver_field (u32 (hw (u32 base) IOAPIC_REG_VER)).

(** A device access of the viewer: a byte store into the index register or
    a 32-bit load from the data register, through the window at [va]. *)
Definition viewer_access (va : Z) (e : event) : Prop :=
match e with
| IoWrite8 v off _ => v = va /\ off = OFF_INDEX
| IoRead32 v off _ => v = va /\ off = OFF_DATA
| _ => True
end.

(** The windows a trace releases. *)
Fixpoint unmapped (t : trace) : list Z :=
match t with
| [] => []
| IoUnmap va :: r => va :: unmapped r
| _ :: r => unmapped r
end.


(** The text of one redirection entry: its separator, the pin in three
    decimal digits, and the 64-bit entry in sixteen hexadecimal digits. *)
Definition pin_text (pin word_hi word_lo : Z) : string :=
String.append (if Z.rem pin 3 =? 0 then NL else "    ")
  (String.append (digits 10 3 pin)
     (String.append ": " (digits 16 16 (word_hi * 2 ^ 32 + word_lo)))).

(** The four device accesses of ioapic_setup through the window at [va]. *)
Definition setup_reads (hw : Z -> Z -> Z) (phys va : Z) : trace :=
[IoWrite8 va OFF_INDEX 0; IoRead32 va OFF_DATA (u32 (hw phys 0));
 IoWrite8 va OFF_INDEX 1; IoRead32 va OFF_DATA (u32 (hw phys 1))].


(** The world a load of the module leaves. *)
Definition world_after_init (hw : Z -> Z -> Z) (base0 base1 : Z) : world :=
match ioapic_init hw base0 base1 boot with
| Some (_, w') => w'
| None => boot
end.

(** What one open adds to the log, after the ioremap. *)
Definition open_trace (hw : Z -> Z -> Z) (phys : Z) (g : globals) (msgs : trace) : trace :=
setup_reads hw phys (ioapic_addr g) ++ msgs
++ show_trace hw phys g (fun p => u8 (0x10 + 2 * p)) (fun p => u8 (0x11 + 2 * p)).

(** Strings put one after the other. *)
Fixpoint join (l : list string) : string :=
match l with
| [] => EmptyString
| s :: r => String.append s (join r)
end.

(** An event that creates no proc file. *)
Definition no_proc_create (e : event) : Prop :=
match e with ProcCreate _ => False | _ => True end.

(** An event that prints nothing on the report and releases no window. *)
Definition silent (e : event) : Prop :=
match e with SeqPrintf _ _ => False | IoUnmap _ => False | _ => True end.

End IoapicExtra.

(** ** Further vocabulary: the MP configuration table *)

Module MpExtra.
Import CInt Mem Printf Kernel Mp Util Unload.

(** The byte values a trace prints, one [" %02X"] each. *)
Fixpoint dumped (t : trace) : list Z :=
match t with
| [] => []
| SeqPrintf fmt [AInt v] :: r =>
  if String.eqb fmt " %02X" then v :: dumped r else dumped r
| _ :: r => dumped r
end.

(** The [n] bytes at [ptr + from], [ptr + from + 1], ... *)
Definition bytes_at (mem : memory) (ptr from : Z) (n : nat) : list Z :=
map (fun j => load8 mem (ptr + j)) (zrange from n).

Definition mp_exit : list exit_event :=
[Unloading; RemoveProcEntry "mp"].

End MpExtra.

(* ===================================================================== *)
(** * Part III: properties                                                *)
(* ===================================================================== *)

(** ** Integers, bit-fields and memory *)

Module BitFacts.
Import CInt Mem.

Lemma bitfield_range w lo n : 0 <= n -> 0 <= bitfield w lo n < 2 ^ n.
Proof.
  intros Hn. unfold bitfield. rewrite Z.land_ones by assumption.
  apply Z.mod_pos_bound. apply Z.pow_pos_nonneg; lia.
Qed.

(** Putting [hi] above the [n] bits of [lo] is an addition. *)
Lemma lor_shiftl_add hi lo n :
  0 <= n -> 0 <= lo < 2 ^ n -> Z.lor (Z.shiftl hi n) lo = hi * 2 ^ n + lo.
Proof.
  intros Hn Hlo.
  assert (Hdisj : Z.land (Z.shiftl hi n) lo = 0).
  { apply Z.bits_inj'. intros i Hi. rewrite Z.land_spec, Z.bits_0.
    destruct (Z_lt_dec i n) as [Hlt | Hge].
    - rewrite Z.shiftl_spec_low by assumption. reflexivity.
    - destruct (Z.eq_dec lo 0) as [-> | Hnz].
      + rewrite Z.bits_0. apply andb_false_r.
      + rewrite (Z.bits_above_log2 lo i), andb_false_r; [reflexivity | lia |].
        apply Z.log2_lt_pow2; [lia |].
        apply Z.lt_le_trans with (2 ^ n); [lia |].
        apply Z.pow_le_mono_r; lia. }
  rewrite <- Z.lxor_lor by assumption.
  rewrite <- Z.add_nocarry_lxor by assumption.
  rewrite Z.shiftl_mul_pow2 by assumption. reflexivity.
Qed.

Lemma int_small z : - 2 ^ 31 <= z < 2 ^ 31 -> int z = z.
Proof.
  intros H. unfold int. rewrite Z.mod_small; lia.
Qed.

Lemma wrap_range w z : 0 <= w -> 0 <= wrap w z < 2 ^ w.
Proof.
  intros Hw. unfold wrap. apply Z.mod_pos_bound. apply Z.pow_pos_nonneg; lia.
Qed.

Lemma nonzero_has_bit x : 0 <= x -> x <> 0 -> exists i, 0 <= i /\ Z.testbit x i = true.
Proof.
  intros Hx Hnz. exists (Z.log2 x). split; [apply Z.log2_nonneg |].
  apply Z.bit_log2. lia.
Qed.

Lemma load8_range m a : 0 <= load8 m a < 2 ^ 8.
Proof.
  unfold load8. pose proof (Byte.to_N_bounded (m a)). lia.
Qed.

Lemma load16_eq m a : load16 m a = load8 m (a + 1) * 2 ^ 8 + load8 m a.
Proof.
  unfold load16. rewrite Z.lor_comm. apply lor_shiftl_add; [lia | apply load8_range].
Qed.

Lemma load16_range m a : 0 <= load16 m a < 2 ^ 16.
Proof.
  rewrite load16_eq.
  pose proof (load8_range m a). pose proof (load8_range m (a + 1)). lia.
Qed.

Lemma load32_eq m a : load32 m a = load16 m (a + 2) * 2 ^ 16 + load16 m a.
Proof.
  unfold load32. rewrite Z.lor_comm. apply lor_shiftl_add; [lia | apply load16_range].
Qed.

Lemma load32_range m a : 0 <= load32 m a < 2 ^ 32.
Proof.
  rewrite load32_eq.
  pose proof (load16_range m a). pose proof (load16_range m (a + 2)). lia.
Qed.

(** A byte is determined by its value. *)
Lemma load8_inj mem a (b : byte) : load8 mem a = Z.of_N (Byte.to_N b) -> mem a = b.
Proof.
  unfold load8. intros H. apply N2Z.inj in H.
  pose proof (Byte.of_to_N (mem a)) as H1. pose proof (Byte.of_to_N b) as H2.
  rewrite H in H1. congruence.
Qed.

Lemma load32_bytes mem a :
  load32 mem a
  = load8 mem a + 2 ^ 8 * load8 mem (a + 1)
    + 2 ^ 16 * load8 mem (a + 2) + 2 ^ 24 * load8 mem (a + 3).
Proof.
  rewrite load32_eq, !load16_eq. replace (a + 2 + 1) with (a + 3) by lia. lia.
Qed.

Lemma load_bytes_4 mem a :
  load_bytes mem a 4 = [mem a; mem (a + 1); mem (a + 2); mem (a + 3)].
Proof.
  cbn. replace (a + 1 + 1) with (a + 2) by lia.
  replace (a + 2 + 1) with (a + 3) by lia. reflexivity.
Qed.

End BitFacts.

Module UtilFacts.
Import Util.

Lemma zrange_length start n : List.length (zrange start n) = n.
Proof.
  revert start. induction n as [| n IH]; intros start; cbn; [| rewrite IH]; reflexivity.
Qed.

Lemma zrange_nth n : forall start k d,
  (k < n)%nat -> nth k (zrange start n) d = start + Z.of_nat k.
Proof.
  induction n as [| n IH]; intros start k d Hk; [lia |].
  destruct k as [| k]; cbn [zrange nth]; [lia |].
  rewrite IH by lia. lia.
Qed.

End UtilFacts.

(** ** Formatting *)

Module PrintfFacts.
Import Printf Kernel.

Lemma append_assoc (a b c : string) : ((a ++ b) ++ c = a ++ (b ++ c))%string.
Proof. induction a as [| ch a IH]; simpl; [reflexivity | now rewrite IH]. Qed.

Lemma append_nil_r (a : string) : (a ++ "" = a)%string.
Proof. induction a as [| ch a IH]; simpl; [reflexivity | now rewrite IH]. Qed.

Example sprintf_pin_line :
  sprintf "%03d: %08X%08X" [AInt 7; AInt 255; AInt 4096] = "007: 000000FF00001000"%string.
Proof. reflexivity. Qed.

Example sprintf_mixed :
  sprintf "0x%03X: %d %s %c%%" [AInt 44; AInt 65536; AStr "trap"; AChr "+"]
  = "0x02C: 65536 trap +%"%string.
Proof. reflexivity. Qed.

(** The digit count never exceeds a width the value fits in. *)
Lemma ndigits_le fuel b v (w : nat) :
  1 < b -> 0 <= v < b ^ Z.of_nat w -> (1 <= w)%nat -> (ndigits fuel b v <= w)%nat.
Proof.
  intros Hb. revert v w.
  induction fuel as [| f IH]; intros v w Hv Hw; simpl; [lia |].
  destruct (Z.ltb_spec v b) as [Hlt | Hge]; [lia |].
  destruct w as [| w']; [lia |].
  destruct w' as [| w''].
  - change (Z.of_nat 1) with 1 in Hv. rewrite Z.pow_1_r in Hv. lia.
  - apply le_n_S. apply IH; [| lia].
    rewrite Nat2Z.inj_succ, Z.pow_succ_r in Hv by lia.
    split; [apply Z.div_pos; lia |].
    apply Z.div_lt_upper_bound; lia.
Qed.

(** Under the [0] flag a value that fits in the width is printed with
    exactly that many digits. *)
Lemma pad_num_fits b (w : nat) v :
  1 < b -> 0 <= v < b ^ Z.of_nat w -> (1 <= w)%nat ->
  pad_num b true w v = digits b w v.
Proof.
  intros Hb Hv Hw. unfold pad_num, num_len.
  rewrite Nat.max_l; [reflexivity |]. now apply ndigits_le.
Qed.

(** The digits of a number split at any position. *)
Lemma digits_split b (n m : nat) v :
  0 < b ->
  digits b (n + m) v = (digits b n (v / b ^ Z.of_nat m) ++ digits b m v)%string.
Proof.
  intros Hb. revert v.
  induction m as [| m IH]; intros v.
  - rewrite Nat.add_0_r. simpl. now rewrite Z.div_1_r, append_nil_r.
  - rewrite Nat.add_succ_r. cbn [digits].
    rewrite IH, append_assoc.
    rewrite Nat2Z.inj_succ, Z.pow_succ_r by lia.
    rewrite Z.div_div by (try apply Z.pow_pos_nonneg; lia).
    reflexivity.
Qed.

(** The [m] low-order digits only depend on the value modulo [b^m]. *)
Lemma digits_mod b (m : nat) v :
  0 < b -> digits b m (v mod b ^ Z.of_nat m) = digits b m v.
Proof.
  intros Hb. revert v.
  induction m as [| m IH]; intros v; [reflexivity |].
  cbn [digits].
  rewrite Nat2Z.inj_succ, Z.pow_succ_r by lia.
  assert (Hp : 0 < b ^ Z.of_nat m) by (apply Z.pow_pos_nonneg; lia).
  rewrite Z.rem_mul_r by lia.
  replace ((v mod b + b * ((v / b) mod b ^ Z.of_nat m)) / b)
    with ((v / b) mod b ^ Z.of_nat m).
  2:{ rewrite (Z.mul_comm b), Z.div_add by lia.
      rewrite (Z.div_small (v mod b)) by (apply Z.mod_pos_bound; lia). lia. }
  rewrite IH. f_equal. f_equal. f_equal.
  rewrite (Z.mul_comm b), Z.mod_add by lia. apply Z.mod_mod; lia.
Qed.

(** Three zero-padded hexadecimal fields of 8, 4 and 4 digits read as the
    16 digits of their concatenation. *)
Lemma hex_8_4_4 hi mid lo :
  0 <= hi < 2 ^ 32 -> 0 <= mid < 2 ^ 16 -> 0 <= lo < 2 ^ 16 ->
  (pad_num 16 true 8 hi ++ pad_num 16 true 4 mid ++ pad_num 16 true 4 lo)%string
  = digits 16 16 (hi * 2 ^ 32 + mid * 2 ^ 16 + lo).
Proof.
  intros Hhi Hmid Hlo.
  rewrite !pad_num_fits by (simpl; lia).
  change 16%nat with (8 + 8)%nat.
  rewrite digits_split by lia.
  change (16 ^ Z.of_nat 8) with (2 ^ 32).
  replace ((hi * 2 ^ 32 + mid * 2 ^ 16 + lo) / 2 ^ 32) with hi.
  2:{ rewrite <- Z.add_assoc, Z.add_comm, Z.div_add by lia.
      rewrite Z.div_small; lia. }
  f_equal.
  change 8%nat with (4 + 4)%nat.
  rewrite digits_split by lia.
  change (16 ^ Z.of_nat 4) with (2 ^ 16).
  rewrite <- (digits_mod 16 4 ((hi * 2 ^ 32 + mid * 2 ^ 16 + lo) / 2 ^ 16)) by lia.
  rewrite <- (digits_mod 16 4 (hi * 2 ^ 32 + mid * 2 ^ 16 + lo)) by lia.
  change (16 ^ Z.of_nat 4) with (2 ^ 16).
  replace (hi * 2 ^ 32 + mid * 2 ^ 16 + lo)
    with (lo + (hi * 2 ^ 16 + mid) * 2 ^ 16) by lia.
  rewrite Z.div_add, Z.mod_add by lia.
  rewrite (Z.div_small lo), (Z.mod_small lo) by lia.
  replace (0 + (hi * 2 ^ 16 + mid)) with (mid + hi * 2 ^ 16) by lia.
  rewrite Z.mod_add, (Z.mod_small mid) by lia.
  reflexivity.
Qed.

(** Runs the scanner over a literal format and flattens the result. *)
Ltac run_format :=
  unfold sprintf; lazy -[pad_num signed_num String.append];
  repeat (rewrite ?append_assoc, ?append_nil_r; cbn [String.append]).

Lemma line64_split a b s c d e f g h i :
  sprintf " %016llX%016llX %s %X   %c %X   %04X %08X%04X%04X"
          [AInt a; AInt b; AStr s; AInt c; AChr d; AInt e; AInt f;
           AInt g; AInt h; AInt i]
  = (sprintf " %016llX%016llX %s %X   %c %X   %04X "
             [AInt a; AInt b; AStr s; AInt c; AChr d; AInt e; AInt f]
     ++ (pad_num 16 true 8 g ++ pad_num 16 true 4 h ++ pad_num 16 true 4 i))%string.
Proof. run_format. reflexivity. Qed.

Lemma line32_split a b s c d e f :
  sprintf " %08X%08X %s %X   %c %04X %08X"
          [AInt a; AInt b; AStr s; AInt c; AChr d; AInt e; AInt f]
  = (sprintf " %08X%08X %s %X   %c %04X "
             [AInt a; AInt b; AStr s; AInt c; AChr d; AInt e]
     ++ pad_num 16 true 8 f)%string.
Proof. run_format. reflexivity. Qed.

Lemma loads_app t1 t2 : loads (t1 ++ t2) = loads t1 ++ loads t2.
Proof.
  induction t1 as [| e t1 IH]; [reflexivity |].
  destruct e; cbn; rewrite IH; reflexivity.
Qed.

End PrintfFacts.

(** ** The interrupt descriptor table *)

Module IdtFacts.
Import CInt Mem Printf Kernel Idt Util IdtSpec BitFacts PrintfFacts.

Lemma idt_walk_step cfg m idt n entry :
  idt_walk cfg m idt n entry =
  if Z_lt_dec entry n then
    SeqPrintf (NL ++ "0x%02X:") [AInt entry]
    :: show_entry cfg m idt entry
    :: idt_walk cfg m idt n (entry + 1)
  else [].
Proof.
  rewrite idt_walk_equation_1. unfold idt_walk_unfold_clause_1.
  destruct (Z_lt_dec entry n); reflexivity.
Qed.

(** The walk shows the entries [entry], [entry] + 1, ... below [n], one
    index and one descriptor line each. *)
Lemma idt_walk_lines cfg m idt n (k : nat) : forall entry,
  Z.to_nat (n - entry) = k ->
  idt_walk cfg m idt n entry
  = flat_map (fun e => [SeqPrintf (NL ++ "0x%02X:") [AInt e]; show_entry cfg m idt e])
             (zrange entry k).
Proof.
  induction k as [| k IH]; intros entry Hk; rewrite idt_walk_step.
  - destruct (Z_lt_dec entry n); [lia | reflexivity].
  - destruct (Z_lt_dec entry n); [| lia].
    cbn [zrange flat_map app]. rewrite IH by lia. reflexivity.
Qed.

(** C7.  For the table that the IDTR register describes, idt_setup stores
    the 16-bit limit of the register in [dtr.size] (size_minus_one) and
    sets the entry count to (size_minus_one + 1) divided by the stride:
    the count is fixed by the register and the layout alone, whatever the
    globals held before.  The division is the integer division, the
    stride is 16 bytes on the 64-bit layout and 8 bytes on the 32-bit
    layout, and no C conversion on the way changes the value. *)
Theorem entry_count_formula (cfg : config) (idtr : desc_ptr) (g : globals) :
  size (dtr (fst (idt_setup cfg idtr g))) = size idtr mod 2 ^ 16
  /\ num_idt_entries (fst (idt_setup cfg idtr g))
     = (size idtr mod 2 ^ 16 + 1) / IDT_ENTRY_BYTES cfg
  /\ num_idt_entries (fst (idt_setup cfg idtr g))
     = (size (dtr (fst (idt_setup cfg idtr g))) + 1) / IDT_ENTRY_BYTES cfg
  /\ IDT_ENTRY_BYTES X86_64 = 16 /\ IDT_ENTRY_BYTES X86_32 = 8.
Proof.
  assert (Hcount : num_idt_entries (fst (idt_setup cfg idtr g))
                   = (size idtr mod 2 ^ 16 + 1) / IDT_ENTRY_BYTES cfg).
  { cbn [idt_setup fst num_idt_entries store_idt size].
    pose proof (wrap_range 16 (size idtr) ltac:(lia)) as Hs.
    unfold u16. unfold wrap in Hs |- *. set (s := size idtr mod 2 ^ 16) in *.
    rewrite (int_small (s + 1)) by lia.
    assert (Hk : 0 < IDT_ENTRY_BYTES cfg <= 16) by (destruct cfg; cbn; lia).
    rewrite Z.quot_div_nonneg by lia.
    apply int_small.
    assert (0 <= (s + 1) / IDT_ENTRY_BYTES cfg) by (apply Z.div_pos; lia).
    assert ((s + 1) / IDT_ENTRY_BYTES cfg <= s + 1)
      by (apply Z.div_le_upper_bound; nia).
    lia. }
  split; [reflexivity |].
  split; [exact Hcount |].
  split; [exact Hcount |].
  split; reflexivity.
Qed.

(** On the 32-bit layout the sum idt_show prints is the upper half of [b]
    put above [limit0]. *)
Lemma offset32_concat (e : desc_struct.t) :
  0 <= desc_struct.b e < 2 ^ 32 ->
  offset32 e = bitfield (desc_struct.b e) 16 16 * 2 ^ 16 + desc_struct.limit0 e.
Proof.
  intros Hb. unfold offset32, desc_struct.limit0.
  pose proof (bitfield_range (desc_struct.a e) 0 16 ltac:(lia)) as Hl.
  set (l := bitfield (desc_struct.a e) 0 16) in *.
  assert (Hland : Z.land (desc_struct.b e) 0xFFFF0000
                  = bitfield (desc_struct.b e) 16 16 * 2 ^ 16).
  { unfold bitfield. rewrite <- Z.shiftl_mul_pow2 by lia.
    apply Z.bits_inj'. intros i Hi.
    rewrite Z.land_spec.
    destruct (Z_lt_dec i 16) as [Hlt | Hge].
    - rewrite Z.shiftl_spec_low by assumption.
      change 0xFFFF0000 with (Z.shiftl (Z.ones 16) 16).
      rewrite Z.shiftl_spec_low by assumption. apply andb_false_r.
    - rewrite Z.shiftl_spec by assumption.
      rewrite Z.land_spec, Z.shiftr_spec by lia.
      replace (i - 16 + 16) with i by lia.
      change 0xFFFF0000 with (Z.shiftl (Z.ones 16) 16).
      rewrite Z.shiftl_spec by assumption. reflexivity. }
  rewrite Hland.
  pose proof (bitfield_range (desc_struct.b e) 16 16 ltac:(lia)) as Hh.
  unfold u32, wrap. apply Z.mod_small. lia.
Qed.

(** C8.  On either layout, the line idt_show prints for an entry ends with
    the handler offset as one integer: the hexadecimal digits (16 on the
    64-bit layout, 8 on the 32-bit layout) of the concatenation of the
    entry's split offset fields, high then middle then low on the 64-bit
    layout, the two 16-bit halves on the 32-bit layout. *)
Theorem handler_offset_displayed (cfg : config) (m : memory) (idt entry : Z) :
  seq_text [show_entry cfg m idt entry]
  = (line_prefix cfg m idt entry
     ++ digits 16 (offset_digits cfg) (handler_offset cfg m idt entry))%string.
Proof.
  destruct cfg; cbn [seq_text show_entry line_prefix offset_digits handler_offset];
    rewrite append_nil_r.
  - set (e := gate_struct64.at_index m idt entry).
    pose proof (bitfield_range (gate_struct64.raw_high e) 0 32 ltac:(lia)) as Hh.
    pose proof (bitfield_range (gate_struct64.raw_low e) 48 16 ltac:(lia)) as Hm.
    pose proof (bitfield_range (gate_struct64.raw_low e) 0 16 ltac:(lia)) as Hl.
    fold (gate_struct64.offset_high e) in Hh.
    fold (gate_struct64.offset_middle e) in Hm.
    fold (gate_struct64.offset_low e) in Hl.
    rewrite (lor_shiftl_add (gate_struct64.offset_middle e)) by lia.
    rewrite lor_shiftl_add by lia.
    rewrite Z.add_assoc, <- hex_8_4_4 by assumption.
    apply line64_split.
  - set (e := desc_struct.at_index m idt entry).
    assert (Hb : 0 <= desc_struct.b e < 2 ^ 32) by apply load32_range.
    pose proof (bitfield_range (desc_struct.b e) 16 16 ltac:(lia)) as Hh.
    pose proof (bitfield_range (desc_struct.a e) 0 16 ltac:(lia)) as Hl.
    rewrite lor_shiftl_add by lia.
    rewrite line32_split, offset32_concat by assumption.
    unfold desc_struct.limit0.
    rewrite pad_num_fits; [reflexivity | lia | | lia].
    change (16 ^ Z.of_nat 8) with (2 ^ 32). lia.
Qed.

(** A table of two gates on the 64-bit layout: an interrupt gate, present,
    privilege 0, handler 0xFFFFFFFF81234560; a trap gate, not present,
    privilege 3. *)
Example two_gates :
  let m := of_list 0x1000
             [x60; x45; x10; x00; x00; x8e; x23; x81;
              xff; xff; xff; xff; x00; x00; x00; x00;
              x00; x10; x10; x00; x00; x6f; x00; x00;
              x00; x00; x00; x00; x00; x00; x00; x00] in
  seq_text (snd (idt_show X86_64 {| size := 31; address := 0x1000 |} m
                          {| dtr := {| size := 0; address := 0 |};
                             num_idt_entries := 0; idt := 0 |}))
  = (NL ++ "IDT    Size: 32 bytes / 2 entries    Virt address: 0x1000" ++ NL
     ++ NL ++ "      HEX                              TYPE      DPL P IST SEGM OFFSET"
     ++ NL ++ "0x00: 00000000FFFFFFFF81238E0000104560 interrupt 0   + 0   0010 FFFFFFFF81234560"
     ++ NL ++ "0x01: 000000000000000000006F0000101000 trap      3   - 0   0010 0000000000001000"
     ++ NL ++ NL)%string.
Proof. vm_compute. reflexivity. Qed.

End IdtFacts.

(** ** The IO-APIC redirection table *)

Module IoapicFacts.
Import CInt Printf Kernel Ioapic Util IoapicSpec BitFacts UtilFacts.
Local Open Scope io_scope.

Lemma ioapic_walk_step hw va max pin :
  ioapic_walk hw va max pin =
  if Z_le_dec pin max
  then show_pin hw va pin ;; ioapic_walk hw va max (pin + 1)
  else ret tt.
Proof.
  rewrite ioapic_walk_equation_1. unfold ioapic_walk_unfold_clause_1.
  destruct (Z_le_dec pin max); reflexivity.
Qed.

Lemma ioapic_read_run hw va phys reg w :
  lookup va (mapped w) = Some phys ->
  exists w',
    ioapic_read hw va reg w = Some (u32 (hw phys (u8 reg)), w')
    /\ extends w w' [IoWrite8 va OFF_INDEX (u8 reg);
                     IoRead32 va OFF_DATA (u32 (hw phys (u8 reg)))].
Proof.
  intros Hmap. unfold ioapic_read, bind, store_index, load_data.
  rewrite Hmap. cbn [mapped index_reg]. rewrite Hmap, Z.eqb_refl.
  eexists. split; [reflexivity |].
  unfold extends. cbn. rewrite <- app_assoc. auto.
Qed.

Lemma show_pin_run hw va phys pin w :
  lookup va (mapped w) = Some phys ->
  exists w',
    show_pin hw va pin w = Some (tt, w')
    /\ extends w w' (pin_events hw phys va (u8 (0x10 + 2 * pin)) (u8 (0x11 + 2 * pin)) pin).
Proof.
  intros Hmap. unfold show_pin, bind at 1.
  destruct (ioapic_read_run hw va phys (0x10 + 2 * pin) w Hmap)
    as (w1 & -> & Hv1 & Hm1 & Hb1 & Hl1).
  unfold bind at 1.
  assert (Hmap1 : lookup va (mapped w1) = Some phys) by (rewrite Hm1; exact Hmap).
  destruct (ioapic_read_run hw va phys (0x11 + 2 * pin) w1 Hmap1)
    as (w2 & -> & Hv2 & Hm2 & Hb2 & Hl2).
  unfold pin_events, extends.
  destruct (Z.rem pin 3 =? 0); unfold bind, seq_printf, emit;
    (eexists; split; [reflexivity |]); cbn;
    rewrite Hl2, Hl1, <- !app_assoc; cbn;
    repeat split; congruence.
Qed.

Lemma extends_trans w1 w2 w3 t1 t2 :
  extends w1 w2 t1 -> extends w2 w3 t2 -> extends w1 w3 (t1 ++ t2).
Proof.
  intros (Hv1 & Hm1 & Hb1 & Hl1) (Hv2 & Hm2 & Hb2 & Hl2).
  unfold extends. rewrite Hl2, Hl1, app_assoc. repeat split; congruence.
Qed.

Lemma ioapic_walk_run hw va phys max (n : nat) : forall pin w,
  Z.to_nat (max + 1 - pin) = n ->
  lookup va (mapped w) = Some phys ->
  exists w',
    ioapic_walk hw va max pin w = Some (tt, w')
    /\ extends w w'
         (flat_map (fun p => pin_events hw phys va (u8 (0x10 + 2 * p)) (u8 (0x11 + 2 * p)) p)
                   (zrange pin n)).
Proof.
  induction n as [| n IH]; intros pin w Hn Hmap; rewrite ioapic_walk_step.
  - destruct (Z_le_dec pin max); [lia |].
    exists w. split; [reflexivity |].
    unfold extends. cbn. rewrite app_nil_r. auto.
  - destruct (Z_le_dec pin max); [| lia].
    unfold bind.
    destruct (show_pin_run hw va phys pin w Hmap) as (w1 & -> & Hext1).
    assert (Hmap1 : lookup va (mapped w1) = Some phys).
    { destruct Hext1 as (_ & -> & _). exact Hmap. }
    destruct (IH (pin + 1) w1 ltac:(lia) Hmap1) as (w2 & -> & Hext2).
    exists w2. split; [reflexivity |].
    cbn [zrange flat_map]. eapply extends_trans; eassumption.
Qed.

Lemma id_mask_bit i :
  0 <= i -> Z.testbit IOAPIC_REG_ID_MASK_ID i = true <-> id_field i.
Proof.
  intros Hi. unfold id_field.
  change IOAPIC_REG_ID_MASK_ID with (Z.shiftl (Z.ones 4) 24).
  rewrite Z.shiftl_spec, Z.testbit_ones by lia.
  rewrite andb_true_iff, Z.leb_le, Z.ltb_lt. lia.
Qed.

Lemma ver_mask_bit i :
  0 <= i ->
  Z.testbit IOAPIC_REG_VER_MASK_VER i = true
  \/ Z.testbit IOAPIC_REG_VER_MASK_MAX_ENTRIES i = true <-> ver_field i.
Proof.
  intros Hi. unfold ver_field.
  change IOAPIC_REG_VER_MASK_VER with (Z.ones 8).
  change IOAPIC_REG_VER_MASK_MAX_ENTRIES with (Z.shiftl (Z.ones 8) 16).
  rewrite Z.shiftl_spec, !Z.testbit_ones by lia.
  rewrite !andb_true_iff, !Z.leb_le, !Z.ltb_lt. lia.
Qed.

(** The test on the identification register. *)
Lemma id_check reg_id :
  0 <= reg_id ->
  Z.land reg_id (Z.lnot IOAPIC_REG_ID_MASK_ID) <> 0 <-> has_bit_outside id_field reg_id.
Proof.
  intros Hpos. split.
  - intros Hnz.
    assert (Hnn : 0 <= Z.land reg_id (Z.lnot IOAPIC_REG_ID_MASK_ID))
      by (apply Z.land_nonneg; left; assumption).
    destruct (nonzero_has_bit _ Hnn Hnz) as (i & Hi & Hbit).
    rewrite Z.land_spec, Z.lnot_spec, andb_true_iff, negb_true_iff in Hbit by assumption.
    exists i. repeat split; [assumption | tauto |].
    rewrite <- id_mask_bit by assumption. destruct Hbit as [_ ->]. discriminate.
  - intros (i & Hi & Hbit & Hout) Hz.
    apply (f_equal (fun v => Z.testbit v i)) in Hz.
    rewrite Z.land_spec, Z.lnot_spec, Z.bits_0, Hbit in Hz by assumption.
    apply Hout, id_mask_bit; [assumption |].
    destruct (Z.testbit IOAPIC_REG_ID_MASK_ID i); [reflexivity | discriminate].
Qed.

(** The test on the version register. *)
Lemma ver_check reg_ver :
  0 <= reg_ver ->
  Z.land (Z.land reg_ver (Z.lnot IOAPIC_REG_VER_MASK_VER))
         (Z.lnot IOAPIC_REG_VER_MASK_MAX_ENTRIES) <> 0
  <-> has_bit_outside ver_field reg_ver.
Proof.
  intros Hpos. split.
  - intros Hnz.
    assert (Hnn : 0 <= Z.land (Z.land reg_ver (Z.lnot IOAPIC_REG_VER_MASK_VER))
                              (Z.lnot IOAPIC_REG_VER_MASK_MAX_ENTRIES))
      by (apply Z.land_nonneg; left; apply Z.land_nonneg; left; assumption).
    destruct (nonzero_has_bit _ Hnn Hnz) as (i & Hi & Hbit).
    rewrite !Z.land_spec, !Z.lnot_spec, !andb_true_iff, !negb_true_iff in Hbit
      by assumption.
    destruct Hbit as [[Hb Hv] Hm].
    exists i. repeat split; [assumption | assumption |].
    rewrite <- ver_mask_bit by assumption. rewrite Hv, Hm. intros [H | H]; discriminate.
  - intros (i & Hi & Hbit & Hout) Hz.
    apply (f_equal (fun v => Z.testbit v i)) in Hz.
    rewrite !Z.land_spec, !Z.lnot_spec, Z.bits_0, Hbit in Hz by assumption.
    apply Hout, ver_mask_bit; [assumption |].
    destruct (Z.testbit IOAPIC_REG_VER_MASK_VER i); [now left |].
    destruct (Z.testbit IOAPIC_REG_VER_MASK_MAX_ENTRIES i); [now right | discriminate].
Qed.

(** What ioapic_setup leaves behind, whatever the registers hold. *)
Lemma ioapic_setup_run hw base w :
  exists ret w' t,
    ioapic_setup hw base w = Some (ret, w')
    /\ mapped w' = (brk w, u32 base) :: mapped w
    /\ ioapic_addr (vars w') = brk w
    /\ log w' = log w ++ IoRemap (u32 base) (brk w) :: t
    /\ seq_text t = EmptyString
    /\ (ret = - ENODEV \/ ret = 0)
    /\ (ret = - ENODEV <->
        Z.land (u32 (hw (u32 base) 0)) (Z.lnot IOAPIC_REG_ID_MASK_ID) <> 0
        \/ Z.land (Z.land (u32 (hw (u32 base) 1)) (Z.lnot IOAPIC_REG_VER_MASK_VER))
                  (Z.lnot IOAPIC_REG_VER_MASK_MAX_ENTRIES) <> 0)
    /\ (ret = 0 ->
        max_entries (vars w') = bitfield (u32 (hw (u32 base) 1)) 16 8)
    /\ (ret = - ENODEV -> max_entries (vars w') = max_entries (vars w)).
Proof.
  unfold ioapic_setup, bind at 1, ioremap_nocache.
  unfold bind at 1, read_vars. unfold bind at 1, write_vars, set_vars.
  cbn [vars mapped brk index_reg log].
  set (w0 := {| vars := _; mapped := _; brk := _; index_reg := _; log := _ |}).
  assert (Hmap0 : lookup (brk w) (mapped w0) = Some (u32 base))
    by (cbn; now rewrite Z.eqb_refl).
  unfold bind at 1.
  destruct (ioapic_read_run hw (brk w) (u32 base) IOAPIC_REG_ID w0 Hmap0)
    as (w1 & -> & Hv1 & Hm1 & Hb1 & Hl1).
  unfold bind at 1.
  assert (Hmap1 : lookup (brk w) (mapped w1) = Some (u32 base))
    by (rewrite Hm1; exact Hmap0).
  destruct (ioapic_read_run hw (brk w) (u32 base) IOAPIC_REG_VER w1 Hmap1)
    as (w2 & -> & Hv2 & Hm2 & Hb2 & Hl2).
  change (u8 IOAPIC_REG_ID) with 0 in *. change (u8 IOAPIC_REG_VER) with 1 in *.
  set (reg_id := u32 (hw (u32 base) 0)) in *.
  set (reg_ver := u32 (hw (u32 base) 1)) in *.
  destruct (Z.eqb_spec (Z.land reg_id (Z.lnot IOAPIC_REG_ID_MASK_ID)) 0) as [Hid | Hid];
    cbn [negb].
  2:{ unfold bind, mod_err, emit, ret. do 3 eexists.
      split; [reflexivity |]. cbn [vars mapped brk log].
      rewrite Hm2, Hm1, Hv2, Hv1, Hl2, Hl1. subst w0. cbn [vars mapped brk log].
      rewrite <- !app_assoc. cbn [app]. change (- ENODEV) with (-19).
      repeat split; try reflexivity; auto; try (intros; discriminate). }
  destruct (Z.eqb_spec (Z.land (Z.land reg_ver (Z.lnot IOAPIC_REG_VER_MASK_VER))
                               (Z.lnot IOAPIC_REG_VER_MASK_MAX_ENTRIES)) 0)
    as [Hver | Hver]; cbn [negb].
  2:{ unfold bind, mod_err, emit, ret. do 3 eexists.
      split; [reflexivity |]. cbn [vars mapped brk log].
      rewrite Hm2, Hm1, Hv2, Hv1, Hl2, Hl1. subst w0. cbn [vars mapped brk log].
      rewrite <- !app_assoc. cbn [app]. change (- ENODEV) with (-19).
      repeat split; try reflexivity; auto; try (intros; discriminate). }
  unfold bind, write_vars, set_vars, ret. do 3 eexists.
  split; [reflexivity |]. cbn [vars mapped brk log ioapic_addr max_entries].
  rewrite Hm2, Hm1, Hl2, Hl1. subst w0. cbn [vars mapped brk log].
  rewrite <- !app_assoc. cbn [app].
  change (- ENODEV) with (-19).
  repeat split; try reflexivity; auto; try (intros; discriminate).
  - intros [H | H]; contradiction.
  - intros _. unfold bitfield.
    change IOAPIC_REG_VER_MASK_MAX_ENTRIES with (Z.shiftl (Z.ones 8) 16).
    change IOAPIC_REG_VER_SHIFT_MAX_ENTRIES with 16.
    apply Z.bits_inj'. intros i Hi.
    rewrite Z.shiftr_spec, !Z.land_spec, Z.shiftr_spec, Z.shiftl_spec by lia.
    replace (i + 16 - 16) with i by lia. reflexivity.
Qed.

(** What ioapic_show does in a world where the window is still mapped. *)
Lemma ioapic_show_run hw phys w :
  lookup (ioapic_addr (vars w)) (mapped w) = Some phys ->
  exists w',
    ioapic_show hw w = Some (0, w')
    /\ vars w' = vars w
    /\ mapped w' = remove_window (ioapic_addr (vars w)) (mapped w)
    /\ log w' = log w ++ show_trace hw phys (vars w)
                                    (fun p => u8 (0x10 + 2 * p))
                                    (fun p => u8 (0x11 + 2 * p)).
Proof.
  intros Hmap. unfold ioapic_show, bind at 1, read_vars.
  unfold bind at 1, seq_printf, emit.
  set (w0 := {| vars := _; mapped := _; brk := _; index_reg := _; log := _ |}).
  unfold bind at 1.
  destruct (ioapic_walk_run hw (ioapic_addr (vars w)) phys (max_entries (vars w))
              (Z.to_nat (max_entries (vars w) + 1)) 0 w0 ltac:(f_equal; lia) Hmap)
    as (w1 & -> & Hv1 & Hm1 & Hb1 & Hl1).
  unfold bind, iounmap, ret. eexists. split; [reflexivity |].
  cbn [vars mapped brk log]. rewrite Hv1, Hm1, Hl1. subst w0. cbn [vars mapped brk log].
  unfold show_trace, pins. rewrite <- !app_assoc. cbn [app].
  repeat split.
Qed.

(** C2.  Whatever the state of the module and whatever the two registers
    hold, ioapic_setup returns; it returns either -ENODEV (the setup
    fails: bad register contents) or 0, and it fails if and only if the
    identification register has some bit set outside bits 24-27 or the
    version register has some bit set outside bits 0-7 and 16-23.  A
    pair of values with only bits inside those fields succeeds. *)
Theorem setup_validation (hw : Z -> Z -> Z) (base : Z) (w : world) :
  exists ret w',
    ioapic_setup hw base w = Some (ret, w')
    /\ (ret = - ENODEV \/ ret = 0)
    /\ (ret = - ENODEV <->
        has_bit_outside id_field (u32 (hw (u32 base) IOAPIC_REG_ID))
        \/ has_bit_outside ver_field (u32 (hw (u32 base) IOAPIC_REG_VER)))
    /\ (ret = 0 <->
        ~ has_bit_outside id_field (u32 (hw (u32 base) IOAPIC_REG_ID))
        /\ ~ has_bit_outside ver_field (u32 (hw (u32 base) IOAPIC_REG_VER))).
Proof.
  set (reg_id := u32 (hw (u32 base) IOAPIC_REG_ID)).
  set (reg_ver := u32 (hw (u32 base) IOAPIC_REG_VER)).
  destruct (ioapic_setup_run hw base w)
    as (ret & w' & t & Hrun & _ & _ & _ & _ & Hret & Hiff & _).
  exists ret, w'. split; [exact Hrun |]. split; [exact Hret |].
  assert (Hid : 0 <= reg_id) by (apply (wrap_range 32); lia).
  assert (Hver : 0 <= reg_ver) by (apply (wrap_range 32); lia).
  rewrite <- (id_check reg_id Hid), <- (ver_check reg_ver Hver).
  split; [exact Hiff |].
  change (- ENODEV) with (-19) in *.
  destruct Hret as [-> | ->]; split; intros H; try lia; try tauto.
  destruct (Z.eq_dec (Z.land reg_id (Z.lnot IOAPIC_REG_ID_MASK_ID)) 0) as [E1 | E1];
    [| exfalso; lia || (assert (0 = -19) by (apply Hiff; left; exact E1); lia)].
  destruct (Z.eq_dec (Z.land (Z.land reg_ver (Z.lnot IOAPIC_REG_VER_MASK_VER))
                             (Z.lnot IOAPIC_REG_VER_MASK_MAX_ENTRIES)) 0) as [E2 | E2];
    [| exfalso; assert (0 = -19) by (apply Hiff; right; exact E2); lia].
  tauto.
Qed.

(** One open, whatever the base address. *)
Lemma open_run hw base w :
  lookup (brk w) (mapped w) = None ->
  exists ret w' t,
    (ioapic_setup hw base ;; single_open (ioapic_show hw)) w = Some (ret, w')
    /\ mapped w' = mapped w
    /\ ioapic_addr (vars w') = brk w
    /\ lookup (ioapic_addr (vars w')) (mapped w') = None
    /\ log w' = log w ++ IoRemap (u32 base) (brk w) :: t ++ [IoUnmap (brk w)].
Proof.
  intros Hfresh. unfold bind, single_open.
  destruct (ioapic_setup_run hw base w)
    as (r1 & w1 & t1 & -> & Hm1 & Ha1 & Hl1 & _).
  assert (Hmap : lookup (ioapic_addr (vars w1)) (mapped w1) = Some (u32 base))
    by (rewrite Hm1, Ha1; cbn; now rewrite Z.eqb_refl).
  destruct (ioapic_show_run hw (u32 base) w1 Hmap) as (w2 & -> & Hv2 & Hm2 & Hl2).
  assert (Hback : mapped w2 = mapped w)
    by (rewrite Hm2, Hm1, Ha1; cbn; now rewrite Z.eqb_refl).
  exists 0, w2,
    (t1 ++ SeqPrintf (NL ++ "IO-APIC    ID %X    Version: %02X    Max entries: %d" ++ NL)
                     [AInt (id (vars w1)); AInt (version (vars w1));
                      AInt (int (u32 (max_entries (vars w1) + 1)))]
        :: flat_map (fun p => pin_events hw (u32 base) (brk w)
                                         (u8 (0x10 + 2 * p)) (u8 (0x11 + 2 * p)) p)
                    (pins (max_entries (vars w1)))
        ++ [SeqPrintf (NL ++ NL) []]).
  split; [reflexivity |].
  rewrite Hv2, Ha1, Hback. repeat split; [exact Hfresh |].
  rewrite Hl2, Hl1. unfold show_trace. rewrite Ha1.
  repeat (rewrite <- ?app_assoc; cbn [app]). reflexivity.
Qed.

(** C4.  One open of either proc file (ioapic_setup, then the one pass of
    ioapic_show that single_open arranges) ends with the register window
    it mapped released, whatever the registers hold and so also when the
    reserved-bit validation fails: the open completes, the live windows
    are those from before the open, the window mapped at setup is not
    among them, and the trace of the open starts with its ioremap and
    ends with the iounmap of the same address. *)
Theorem open_releases_window (hw : Z -> Z -> Z) (ioapic0_base ioapic1_base : Z) (w : world) :
  lookup (brk w) (mapped w) = None ->
  (exists ret w' t,
      ioapic0_open hw ioapic0_base w = Some (ret, w')
      /\ mapped w' = mapped w
      /\ ioapic_addr (vars w') = brk w
      /\ lookup (ioapic_addr (vars w')) (mapped w') = None
      /\ log w' = log w ++ IoRemap (u32 ioapic0_base) (brk w) :: t ++ [IoUnmap (brk w)])
  /\ (exists ret w' t,
      ioapic1_open hw ioapic1_base w = Some (ret, w')
      /\ mapped w' = mapped w
      /\ ioapic_addr (vars w') = brk w
      /\ lookup (ioapic_addr (vars w')) (mapped w') = None
      /\ log w' = log w ++ IoRemap (u32 ioapic1_base) (brk w) :: t ++ [IoUnmap (brk w)]).
Proof.
  intros Hfresh. split; apply open_run; exact Hfresh.
Qed.

Lemma open_releases_window_witness :
  lookup (brk boot) (mapped boot) = None
  /\ exists ret w' t,
      ioapic0_open hw_ones 0xFEC00000 boot = Some (ret, w')
      /\ mapped w' = mapped boot
      /\ ioapic_addr (vars w') = brk boot
      /\ lookup (ioapic_addr (vars w')) (mapped w') = None
      /\ log w' = log boot ++ IoRemap (u32 0xFEC00000) (brk boot) :: t ++ [IoUnmap (brk boot)].
Proof.
  split; [reflexivity |].
  apply (open_releases_window hw_ones 0xFEC00000 0 boot). reflexivity.
Defined.

Lemma u8_small_registers p :
  0 <= p <= 119 -> u8 (0x10 + 2 * p) = 0x10 + 2 * p /\ u8 (0x11 + 2 * p) = 0x11 + 2 * p.
Proof.
  intros Hp. unfold u8, wrap. rewrite !Z.mod_small; lia.
Qed.

(** C9 (amended).  After a successful setup, max_entries is at most 255
    and ioapic_show walks exactly max_entries + 1 pins, 0, 1, ...,
    max_entries in this order, reading for each pin the two logical
    registers (0x10 + 2*pin) mod 256 and (0x11 + 2*pin) mod 256 one after
    the other (the register number is passed as a [uint8_t]); for every
    pin up to 119 these are 0x10 + 2*pin and 0x11 + 2*pin. *)
Theorem walker_reads_pins (hw : Z -> Z -> Z) (base : Z) (w w1 : world) :
  ioapic_setup hw base w = Some (0, w1) ->
  0 <= max_entries (vars w1) <= 255
  /\ List.length (pins (max_entries (vars w1))) = Z.to_nat (max_entries (vars w1) + 1)
  /\ (forall k, (k < List.length (pins (max_entries (vars w1))))%nat ->
                nth k (pins (max_entries (vars w1))) (-1) = Z.of_nat k)
  /\ (exists w2,
        ioapic_show hw w1 = Some (0, w2)
        /\ log w2 = log w1 ++ show_trace hw (u32 base) (vars w1)
                                         (fun p => u8 (0x10 + 2 * p))
                                         (fun p => u8 (0x11 + 2 * p)))
  /\ (forall p, 0 <= p <= 119 ->
                u8 (0x10 + 2 * p) = 0x10 + 2 * p /\ u8 (0x11 + 2 * p) = 0x11 + 2 * p).
Proof.
  intros Hsetup.
  destruct (ioapic_setup_run hw base w)
    as (r & w' & t & Hrun & Hm & Ha & _ & _ & _ & _ & Hmax & _).
  rewrite Hsetup in Hrun. injection Hrun as <- <-.
  specialize (Hmax eq_refl).
  split.
  { rewrite Hmax.
    pose proof (bitfield_range (u32 (hw (u32 base) 1)) 16 8 ltac:(lia)). lia. }
  split; [apply zrange_length |].
  split.
  { intros k Hk. unfold pins in *. rewrite zrange_length in Hk.
    rewrite zrange_nth by assumption. lia. }
  split; [| exact u8_small_registers].
  assert (Hmap : lookup (ioapic_addr (vars w1)) (mapped w1) = Some (u32 base))
    by (rewrite Hm, Ha; cbn; now rewrite Z.eqb_refl).
  destruct (ioapic_show_run hw (u32 base) w1 Hmap) as (w2 & Hshow & _ & _ & Hl).
  exists w2. split; assumption.
Qed.

Lemma walker_reads_pins_witness :
  ioapic_setup hw_24 0xFEC00000 boot = Some (0, world_after_setup hw_24 0xFEC00000)
  /\ 0 <= max_entries (vars (world_after_setup hw_24 0xFEC00000)) <= 255
  /\ List.length (pins (max_entries (vars (world_after_setup hw_24 0xFEC00000))))
     = Z.to_nat (max_entries (vars (world_after_setup hw_24 0xFEC00000)) + 1)
  /\ (forall k,
        (k < List.length (pins (max_entries (vars (world_after_setup hw_24 0xFEC00000)))))%nat ->
        nth k (pins (max_entries (vars (world_after_setup hw_24 0xFEC00000)))) (-1)
        = Z.of_nat k)
  /\ (exists w2,
        ioapic_show hw_24 (world_after_setup hw_24 0xFEC00000) = Some (0, w2)
        /\ log w2 = log (world_after_setup hw_24 0xFEC00000)
                    ++ show_trace hw_24 (u32 0xFEC00000)
                                  (vars (world_after_setup hw_24 0xFEC00000))
                                  (fun p => u8 (0x10 + 2 * p))
                                  (fun p => u8 (0x11 + 2 * p)))
  /\ (forall p, 0 <= p <= 119 ->
                u8 (0x10 + 2 * p) = 0x10 + 2 * p /\ u8 (0x11 + 2 * p) = 0x11 + 2 * p).
Proof.
  split; [vm_compute; reflexivity |].
  apply (walker_reads_pins hw_24 0xFEC00000 boot). vm_compute. reflexivity.
Defined.

(** C9 as stated fails on a controller that announces 121 entries: the
    setup succeeds, and for pin 120 the walker selects the registers 0
    and 1, not 0x100 and 0x101. *)
Lemma walker_register_wraps :
  ~ walks_through (fun p => 0x10 + 2 * p) (fun p => 0x11 + 2 * p)
                  hw_121 0xFEC00000 boot.
Proof.
  intros H.
  destruct (H (world_after_setup hw_121 0xFEC00000)) as (w2 & Hshow & Hlog).
  { vm_compute. reflexivity. }
  vm_compute in Hshow. injection Hshow as <-.
  apply (f_equal index_writes) in Hlog. vm_compute in Hlog. discriminate Hlog.
Qed.

(** C3, on ioapic0_open.  Through a window whose registers read all
    ones ioapic_setup fails with -ENODEV, but ioapic0_open drops that
    result: the open returns 0 and a report is rendered, from the
    globals of the last successful setup (here the zeroed ones: one pin). *)
Lemma open_reports_after_failed_setup :
  option_map fst (ioapic_setup hw_ones 0xFEC00000 boot) = Some (- ENODEV)
  /\ option_map (fun r => (fst r, seq_text (log (snd r))))
                (ioapic0_open hw_ones 0xFEC00000 boot)
     = Some (0, (NL ++ "IO-APIC    ID 0    Version: 00    Max entries: 1" ++ NL
                 ++ NL ++ "000: FFFFFFFFFFFFFFFF" ++ NL ++ NL)%string).
Proof.
  split; vm_compute; reflexivity.
Qed.

End IoapicFacts.

(** ** The MP configuration table *)

Module MpFacts.
Import CInt Mem Printf Kernel Mp Util MpSpec BitFacts PrintfFacts.

Lemma mp_scan_step p2v mem last mpfp phys_addr :
  mp_scan p2v mem last mpfp phys_addr =
  if Z_le_dec phys_addr last then
    if load32 mem (p2v phys_addr) =? MPFP_SIGNATURE
    then (phys_addr, p2v phys_addr)
    else mp_scan p2v mem last (p2v phys_addr) (phys_addr + 16)
  else (phys_addr, mpfp).
Proof.
  rewrite mp_scan_equation_1. unfold mp_scan_unfold_clause_1.
  destruct (Z_le_dec phys_addr last); reflexivity.
Qed.

Lemma dump_block_step mem ptr limit pos :
  dump_block mem ptr limit pos =
  if Z_lt_dec pos limit then
    (if Z.rem pos 4 =? 0 then [SeqPrintf (NL ++ "0x%03X:") [AInt pos]] else [])
    ++ MemRead (ptr + pos) 1
    :: SeqPrintf " %02X" [AInt (peek mem ptr pos)]
    :: dump_block mem ptr limit (pos + 1)
  else [].
Proof.
  rewrite dump_block_equation_1. unfold dump_block_unfold_clause_1.
  destruct (Z_lt_dec pos limit); reflexivity.
Qed.

Lemma dump_entry_step mem mpct pos entry_bytes byte :
  dump_entry mem mpct pos entry_bytes byte =
  if Z_lt_dec byte entry_bytes then
    MemRead (mpct + (pos + byte)) 1
    :: SeqPrintf " %02X" [AInt (peek mem mpct (pos + byte))]
    :: dump_entry mem mpct pos entry_bytes (byte + 1)
  else [].
Proof.
  rewrite dump_entry_equation_1. unfold dump_entry_unfold_clause_1.
  destruct (Z_lt_dec byte entry_bytes); reflexivity.
Qed.

Lemma mp_walk_step mem mpct size pos :
  mp_walk mem mpct size pos =
  if Z_lt_dec pos size then
    SeqPrintf (NL ++ "0x%03X:") [AInt pos]
    :: MemRead (mpct + pos) 1
    :: dump_entry mem mpct pos (entry_bytes_at mem mpct pos) 0
    ++ mp_walk mem mpct size (pos + entry_bytes_at mem mpct pos)
  else [].
Proof.
  rewrite mp_walk_equation_1. unfold mp_walk_unfold_clause_1.
  destruct (Z_lt_dec pos size); reflexivity.
Qed.

(** The 32-bit comparison against a signature constant is the comparison
    of the four bytes. *)
Lemma signature_test mem a (b0 b1 b2 b3 : byte) :
  load32 mem a
  = Z.of_N (Byte.to_N b0) + 2 ^ 8 * Z.of_N (Byte.to_N b1)
    + 2 ^ 16 * Z.of_N (Byte.to_N b2) + 2 ^ 24 * Z.of_N (Byte.to_N b3)
  <-> load_bytes mem a 4 = [b0; b1; b2; b3].
Proof.
  rewrite load32_bytes, load_bytes_4. split.
  - intros H.
    pose proof (load8_range mem a). pose proof (load8_range mem (a + 1)).
    pose proof (load8_range mem (a + 2)). pose proof (load8_range mem (a + 3)).
    pose proof (Byte.to_N_bounded b0). pose proof (Byte.to_N_bounded b1).
    pose proof (Byte.to_N_bounded b2). pose proof (Byte.to_N_bounded b3).
    assert (load8 mem a = Z.of_N (Byte.to_N b0)) by lia.
    assert (load8 mem (a + 1) = Z.of_N (Byte.to_N b1)) by lia.
    assert (load8 mem (a + 2) = Z.of_N (Byte.to_N b2)) by lia.
    assert (load8 mem (a + 3) = Z.of_N (Byte.to_N b3)) by lia.
    f_equal; [| f_equal; [| f_equal; [| f_equal]]]; now apply load8_inj.
  - intros H. injection H as H0 H1 H2 H3. unfold load8.
    now rewrite H0, H1, H2, H3.
Qed.

Lemma mpfp_signature_test mem a :
  (load32 mem a =? MPFP_SIGNATURE) = true <-> has_signature mem a "_MP_".
Proof.
  rewrite Z.eqb_eq. unfold has_signature.
  change (bytes_of_string "_MP_") with [x5f; x4d; x50; x5f].
  rewrite <- signature_test. reflexivity.
Qed.

Lemma mpct_signature_test mem a :
  (load32 mem a =? MPCT_SIGNATURE) = true <-> has_signature mem a "PCMP".
Proof.
  rewrite Z.eqb_eq. unfold has_signature.
  change (bytes_of_string "PCMP") with [x50; x43; x4d; x50].
  rewrite <- signature_test. reflexivity.
Qed.

Section ScanFacts.
Variable p2v : Z -> Z.
Variable mem : memory.

(** The loop invariant, [k] candidates before the end of the window. *)
Lemma mp_scan_post (k : nat) : forall p mpfp0,
  p = 0x100000 - 16 * Z.of_nat k -> 0xF0000 <= p ->
  scan_post p2v mem p (mp_scan p2v mem 0xFFFFF mpfp0 p).
Proof.
  induction k as [| k IH]; intros p mpfp0 Hp Hlow; rewrite mp_scan_step.
  - destruct (Z_le_dec p 0xFFFFF); [lia |].
    left. split; [cbn; lia |].
    intros a (j & Hj & ->) Hle. lia.
  - destruct (Z_le_dec p 0xFFFFF); [| lia].
    assert (Hcand : candidate p) by (exists (4095 - Z.of_nat k); lia).
    destruct (load32 mem (p2v p) =? MPFP_SIGNATURE) eqn:Hsig.
    + right. cbn [fst snd]. apply mpfp_signature_test in Hsig.
      repeat split; auto; try lia.
    + assert (Hno : ~ has_signature mem (p2v p) "_MP_").
      { intros H. apply mpfp_signature_test in H. congruence. }
      assert (Hnext : forall a, candidate a -> p <= a -> a = p \/ p + 16 <= a).
      { intros a (j & Hj & ->) Hle. lia. }
      destruct (IH (p + 16) (p2v p) ltac:(lia) ltac:(lia))
        as [(Hend & Hnone) | (Hc & Hle & Hm & Hptr & Hnone)].
      * left. split; [exact Hend |].
        intros a Ha Hle. destruct (Hnext a Ha Hle) as [-> | Hge]; auto.
      * right. repeat split; auto; try lia.
        intros a Ha [Hle1 Hlt].
        destruct (Hnext a Ha Hle1) as [-> | Hge]; auto.
Qed.

Lemma mp_scan_result mpfp0 :
  (fst (mp_scan p2v mem 0xFFFFF mpfp0 0xF0000) = 0x100000 /\ no_match p2v mem)
  \/ (first_match p2v mem (fst (mp_scan p2v mem 0xFFFFF mpfp0 0xF0000))
      /\ snd (mp_scan p2v mem 0xFFFFF mpfp0 0xF0000)
         = p2v (fst (mp_scan p2v mem 0xFFFFF mpfp0 0xF0000))).
Proof.
  destruct (mp_scan_post 4096 0xF0000 mpfp0 ltac:(lia) ltac:(lia))
    as [(Hend & Hnone) | (Hc & Hle & Hm & Hptr & Hnone)].
  - left. split; [exact Hend |].
    intros a Ha. apply Hnone; [exact Ha |]. destruct Ha as (j & Hj & ->). lia.
  - right. split; [| exact Hptr].
    repeat split; auto.
    intros a Ha Hlt. apply Hnone; [exact Ha |]. destruct Ha as (j & Hj & ->). lia.
Qed.

Lemma first_match_unique a a' :
  first_match p2v mem a -> first_match p2v mem a' -> a = a'.
Proof.
  intros (Hc & Hm & Hfirst) (Hc' & Hm' & Hfirst').
  destruct (Z.lt_trichotomy a a') as [Hlt | [Heq | Hgt]]; [| exact Heq |].
  - exfalso. exact (Hfirst' a Hc Hlt Hm).
  - exfalso. exact (Hfirst a' Hc' Hgt Hm').
Qed.

Lemma candidate_in_window a : candidate a -> 0xF0000 <= a <= 0xFFFFF.
Proof. intros (j & Hj & ->). lia. Qed.

Lemma mp_scan_found mpfp0 a :
  first_match p2v mem a -> mp_scan p2v mem 0xFFFFF mpfp0 0xF0000 = (a, p2v a).
Proof.
  intros Hfm.
  destruct (mp_scan_result mpfp0) as [(Hend & Hnone) | (Hfm' & Hptr)].
  - exfalso. destruct Hfm as (Hc & Hm & _). exact (Hnone a Hc Hm).
  - pose proof (first_match_unique _ _ Hfm Hfm') as ->.
    destruct (mp_scan p2v mem 0xFFFFF mpfp0 0xF0000) as [x y]. cbn in *. congruence.
Qed.

Lemma mp_scan_exhausted mpfp0 :
  no_match p2v mem -> fst (mp_scan p2v mem 0xFFFFF mpfp0 0xF0000) = 0x100000.
Proof.
  intros Hnone.
  destruct (mp_scan_result mpfp0) as [(Hend & _) | ((Hc & Hm & _) & _)].
  - exact Hend.
  - exfalso. exact (Hnone _ Hc Hm).
Qed.

(** C5.  The search of mp_setup visits the addresses 0xF0000, 0xF0010,
    ..., up to 0xFFFFF, and tests the four bytes at each against "_MP_".
    mp_setup fails with the not-found error exactly when no visited
    address carries the signature.  The loop is left at address [a]
    with [mpfp] on it exactly when [a] is the first visited address
    that carries the signature, neither an earlier nor a later one. *)
Theorem scan_finds_first_match (g : globals) :
  (not_found (mp_setup p2v mem g) <-> no_match p2v mem)
  /\ (forall a, first_match p2v mem a <->
                mp_scan p2v mem 0xFFFFF (mpfp g) 0xF0000 = (a, p2v a)
                /\ a <> 0x100000)
  /\ (forall a, first_match p2v mem a ->
                mpfp (snd (fst (mp_setup p2v mem g))) = p2v a).
Proof.
  split; [| split].
  - split.
    + intros (Hret & Hlog). unfold mp_setup in Hlog.
      destruct (mp_scan_result (mpfp g)) as [(Hend & Hnone) | (Hfm & Hptr)];
        [exact Hnone |].
      exfalso.
      destruct (mp_scan p2v mem 0xFFFFF (mpfp g) 0xF0000) as [x y]. cbn [fst snd] in *.
      pose proof (candidate_in_window _ (proj1 Hfm)) as Hwin.
      destruct (Z.eqb_spec x 0x100000) as [-> | _]; [lia |].
      destruct (negb _); cbn in Hlog; discriminate Hlog.
    + intros Hnone. pose proof (mp_scan_exhausted (mpfp g) Hnone) as Hend.
      unfold not_found, mp_setup.
      destruct (mp_scan p2v mem 0xFFFFF (mpfp g) 0xF0000) as [x y]. cbn [fst] in Hend.
      subst x. cbn. split; reflexivity.
  - intros a. split.
    + intros Hfm. split; [now apply mp_scan_found |].
      pose proof (candidate_in_window _ (proj1 Hfm)). lia.
    + intros (Hscan & Hne).
      destruct (mp_scan_result (mpfp g)) as [(Hend & _) | (Hfm & _)];
        rewrite Hscan in *; cbn [fst] in *; [contradiction | exact Hfm].
  - intros a Hfm. unfold mp_setup. rewrite (mp_scan_found (mpfp g) a Hfm).
    pose proof (candidate_in_window _ (proj1 Hfm)) as Hwin.
    destruct (Z.eqb_spec a 0x100000) as [-> | _]; [lia |].
    destruct (negb _); reflexivity.
Qed.

(** C6.  When the search has matched at [a], mp_setup takes the address
    of the second table from the 4-byte field at offset 4 of the
    matched structure; it fails with the signature error exactly when
    the first four bytes of that table are not "PCMP"; otherwise it
    returns 0 with [mpct] on that table and [base_mpct_bytes] equal to
    the 2-byte field at offset 4 of the table. *)
Theorem second_stage (g : globals) (a : Z) :
  first_match p2v mem a ->
  (invalid_signature (mp_setup p2v mem g)
   <-> ~ has_signature mem (second_table p2v mem a) "PCMP")
  /\ (has_signature mem (second_table p2v mem a) "PCMP" ->
      fst (fst (mp_setup p2v mem g)) = 0
      /\ mpct (snd (fst (mp_setup p2v mem g))) = second_table p2v mem a
      /\ base_mpct_bytes (snd (fst (mp_setup p2v mem g)))
         = load16 mem (second_table p2v mem a + 4)).
Proof.
  intros Hfm. unfold mp_setup.
  rewrite (mp_scan_found (mpfp g) a Hfm).
  pose proof (candidate_in_window _ (proj1 Hfm)) as Hwin.
  destruct (Z.eqb_spec a 0x100000) as [-> | _]; [lia |].
  change (p2v (load32 mem (p2v a + MPFP_SIGNATURE_BYTES)))
    with (second_table p2v mem a).
  set (table := second_table p2v mem a).
  destruct (load32 mem table =? MPCT_SIGNATURE) eqn:Hsig; cbn [negb].
  - apply mpct_signature_test in Hsig. split.
    + split; [| tauto]. intros (Hret & _). cbn in Hret. discriminate Hret.
    + intros _. cbn [fst snd mpct base_mpct_bytes]. repeat split.
      change MPCT_SIGNATURE_BYTES with 4.
      rewrite load32_eq. unfold u16, wrap.
      rewrite Z.add_comm, Z.mod_add by lia.
      apply Z.mod_small, load16_range.
  - assert (Hno : ~ has_signature mem table "PCMP").
    { intros H. apply mpct_signature_test in H. congruence. }
    split; [| tauto].
    split; [intros _; exact Hno |].
    intros _. split; [reflexivity |]. cbn [snd]. eexists. reflexivity.
Qed.

End ScanFacts.

Lemma rom_first_match : first_match identity_map rom 0xF0000.
Proof.
  split; [exists 0; lia |]. split; [reflexivity |].
  intros a' (j & Hj & ->) Hlt. lia.
Defined.

Lemma second_stage_witness :
  first_match identity_map rom 0xF0000
  /\ (invalid_signature (mp_setup identity_map rom boot)
      <-> ~ has_signature rom (second_table identity_map rom 0xF0000) "PCMP")
  /\ (has_signature rom (second_table identity_map rom 0xF0000) "PCMP" ->
      fst (fst (mp_setup identity_map rom boot)) = 0
      /\ mpct (snd (fst (mp_setup identity_map rom boot)))
         = second_table identity_map rom 0xF0000
      /\ base_mpct_bytes (snd (fst (mp_setup identity_map rom boot)))
         = load16 rom (second_table identity_map rom 0xF0000 + 4)).
Proof.
  split; [exact rom_first_match |].
  exact (second_stage identity_map rom boot 0xF0000 rom_first_match).
Defined.

Lemma dump_entry_events mem mpct pos n (k : nat) : forall byte,
  Z.to_nat (n - byte) = k ->
  dump_entry mem mpct pos n byte
  = flat_map (fun j => [MemRead (mpct + (pos + j)) 1;
                        SeqPrintf " %02X" [AInt (load8 mem (mpct + (pos + j)))]])
             (zrange byte k).
Proof.
  induction k as [| k IH]; intros byte Hk; rewrite dump_entry_step.
  - destruct (Z_lt_dec byte n); [lia | reflexivity].
  - destruct (Z_lt_dec byte n); [| lia].
    cbn [zrange flat_map app]. rewrite IH by lia. reflexivity.
Qed.

Lemma entry_bytes_at_cases mem mpct pos :
  entry_bytes_at mem mpct pos = (if load8 mem (mpct + pos) =? 0 then 20 else 8).
Proof. reflexivity. Qed.

(** The walk from any position, by induction on the distance to the end. *)
Lemma mp_walk_from mem mpct size (k : nat) : forall pos,
  Z.to_nat (size - pos) = k ->
  exists entries,
    walks mem mpct size pos entries
    /\ mp_walk mem mpct size pos = flat_map (entry_events mem mpct) entries
    /\ Forall (fun e => pos <= fst e < size) entries.
Proof.
  induction k as [k IH] using lt_wf_ind. intros pos Hk. rewrite mp_walk_step.
  destruct (Z_lt_dec pos size) as [Hlt | Hge].
  - pose proof (entry_bytes_at_cases mem mpct pos) as Hn.
    set (n := entry_bytes_at mem mpct pos) in *.
    assert (Hpos : 8 <= n <= 20) by (rewrite Hn; destruct (_ =? _); lia).
    destruct (IH (Z.to_nat (size - (pos + n))) ltac:(lia) (pos + n) eq_refl)
      as (rest & Hwalk & Hev & Hall).
    exists ((pos, n) :: rest). split; [| split].
    + now apply walks_step.
    + cbn [flat_map entry_events fst snd]. rewrite Hev.
      rewrite (dump_entry_events mem mpct pos n (Z.to_nat n) 0) by (f_equal; lia).
      reflexivity.
    + constructor; [cbn; lia |].
      eapply Forall_impl; [| exact Hall]. cbn. intros e He. lia.
  - exists []. split; [| split].
    + apply walks_stop. lia.
    + reflexivity.
    + constructor.
Qed.

(** C1.  The walk of mp_show over the base table starts at offset 44,
    right after the header; while the position is below the declared
    size it reads the byte at the position, takes the entry to be 20
    bytes if that byte is 0 and 8 bytes otherwise, prints the bytes of
    the entry and moves on by as many; it stops as soon as the position
    has reached the declared size.  Every entry it decodes starts below
    that size, whatever lies beyond. *)
Theorem base_table_walk (mem : memory) (g : globals) :
  exists entries,
    walks mem (mpct g) (base_mpct_bytes g) MPCT_HEADER_BYTES entries
    /\ mp_walk mem (mpct g) (base_mpct_bytes g) MPCT_HEADER_BYTES
       = flat_map (entry_events mem (mpct g)) entries
    /\ Forall (fun e => MPCT_HEADER_BYTES <= fst e < base_mpct_bytes g) entries
    /\ exists header,
        snd (mp_show mem g)
        = header ++ SeqPrintf (NL ++ "Base MP Configuration Table:" ++ NL) []
                 :: flat_map (entry_events mem (mpct g)) entries
                 ++ [SeqPrintf NL []].
Proof.
  destruct (mp_walk_from mem (mpct g) (base_mpct_bytes g) _ MPCT_HEADER_BYTES eq_refl)
    as (entries & Hwalk & Hev & Hall).
  exists entries. repeat split; try assumption.
  unfold mp_show. cbn [snd]. rewrite Hev.
  eexists (SeqPrintf _ [] :: dump_block mem (mpfp g) MPFP_STRUCTURE_BYTES 0
           ++ SeqPrintf NL []
           :: SeqPrintf _ []
           :: dump_block mem (mpct g) MPCT_HEADER_BYTES 0
           ++ [SeqPrintf NL []]).
  repeat (rewrite <- ?app_assoc; cbn [app]). reflexivity.
Qed.

Lemma dump_block_loads mem ptr limit (k : nat) : forall pos,
  Z.to_nat (limit - pos) = k ->
  loads (dump_block mem ptr limit pos) = map (fun j => ptr + j) (zrange pos k).
Proof.
  induction k as [| k IH]; intros pos Hk; rewrite dump_block_step.
  - destruct (Z_lt_dec pos limit); [lia | reflexivity].
  - destruct (Z_lt_dec pos limit); [| lia].
    rewrite loads_app. destruct (Z.rem pos 4 =? 0); cbn [loads app zrange map];
      rewrite IH by lia; reflexivity.
Qed.

(** C10.  When the declared base-table size is at most the 44 bytes of
    the header, the walk over the base table does nothing: it emits no
    entry and reads no byte.  All that mp_show reads is the 16 bytes of
    the floating pointer structure and the 44 bytes of the header, so
    no byte of the table at or beyond offset 44. *)
Theorem short_table_walk (mem : memory) (g : globals) :
  base_mpct_bytes g <= MPCT_HEADER_BYTES ->
  mp_walk mem (mpct g) (base_mpct_bytes g) MPCT_HEADER_BYTES = []
  /\ walks mem (mpct g) (base_mpct_bytes g) MPCT_HEADER_BYTES []
  /\ loads (snd (mp_show mem g))
     = map (fun j => mpfp g + j) (zrange 0 16) ++ map (fun j => mpct g + j) (zrange 0 44)
  /\ forall a, In a (loads (snd (mp_show mem g))) ->
               mpfp g <= a < mpfp g + MPFP_STRUCTURE_BYTES
               \/ mpct g <= a < mpct g + MPCT_HEADER_BYTES.
Proof.
  intros Hsize.
  assert (Hwalk : mp_walk mem (mpct g) (base_mpct_bytes g) MPCT_HEADER_BYTES = []).
  { rewrite mp_walk_step. destruct (Z_lt_dec _ _); [lia | reflexivity]. }
  assert (Hloads : loads (snd (mp_show mem g))
     = map (fun j => mpfp g + j) (zrange 0 16) ++ map (fun j => mpct g + j) (zrange 0 44)).
  { unfold mp_show. cbn [snd]. rewrite Hwalk. cbn [loads app].
    rewrite loads_app. cbn [loads]. rewrite loads_app. cbn [loads].
    rewrite (dump_block_loads mem (mpfp g) MPFP_STRUCTURE_BYTES 16 0) by reflexivity.
    rewrite (dump_block_loads mem (mpct g) MPCT_HEADER_BYTES 44 0) by reflexivity.
    rewrite app_nil_r. reflexivity. }
  split; [exact Hwalk |]. split; [apply walks_stop; exact Hsize |].
  split; [exact Hloads |].
  intros a Hin. rewrite Hloads in Hin. apply in_app_or in Hin.
  unfold MPFP_STRUCTURE_BYTES, MPCT_HEADER_BYTES.
  destruct Hin as [Hin | Hin]; [left | right];
    cbn in Hin; repeat (destruct Hin as [<- | Hin]; [lia |]); contradiction.
Qed.

Lemma short_table_walk_witness :
  base_mpct_bytes header_only <= MPCT_HEADER_BYTES
  /\ mp_walk rom (mpct header_only) (base_mpct_bytes header_only) MPCT_HEADER_BYTES = []
  /\ walks rom (mpct header_only) (base_mpct_bytes header_only) MPCT_HEADER_BYTES []
  /\ loads (snd (mp_show rom header_only))
     = map (fun j => mpfp header_only + j) (zrange 0 16)
       ++ map (fun j => mpct header_only + j) (zrange 0 44)
  /\ forall a, In a (loads (snd (mp_show rom header_only))) ->
               mpfp header_only <= a < mpfp header_only + MPFP_STRUCTURE_BYTES
               \/ mpct header_only <= a < mpct header_only + MPCT_HEADER_BYTES.
Proof.
  split; [cbn; unfold MPCT_HEADER_BYTES; lia |].
  apply (short_table_walk rom header_only). cbn. unfold MPCT_HEADER_BYTES. lia.
Defined.

(** On the firmware image [rom] the setup succeeds with a base table of 72
    bytes and the walk finds the processor entry of 20 bytes at offset 44
    and the bus entry of 8 bytes at offset 64. *)
Example rom_walk :
  fst (fst (mp_setup identity_map rom boot)) = 0
  /\ base_mpct_bytes (snd (fst (mp_setup identity_map rom boot))) = 72
  /\ mp_walk rom 0xF0010 72 MPCT_HEADER_BYTES
     = flat_map (entry_events rom 0xF0010) [(44, 20); (64, 8)].
Proof.
  repeat split; vm_compute; reflexivity.
Qed.

(** A failed mp_setup fails mp_init before the proc file exists: nothing
    can be opened and no report is ever rendered. *)
Lemma mp_init_failure p2v mem g :
  fst (fst (mp_setup p2v mem g)) < 0 ->
  fst (fst (mp_init p2v mem g)) = fst (fst (mp_setup p2v mem g))
  /\ ~ In (ProcCreate "mp") (snd (mp_init p2v mem g))
  /\ seq_text (snd (mp_init p2v mem g)) = EmptyString.
Proof.
  unfold mp_init. intros Hneg.
  assert (Hlog : Forall (fun e => exists l f, e = Printk l f) (snd (mp_setup p2v mem g))).
  { unfold mp_setup.
    destruct (mp_scan p2v mem 0xFFFFF (mpfp g) 0xF0000) as [x y].
    destruct (x =? 0x100000); [| destruct (negb _)]; cbn;
      repeat constructor; eauto. }
  destruct (mp_setup p2v mem g) as [[ret g1] t]. cbn [fst snd] in *.
  apply Z.ltb_lt in Hneg. rewrite Hneg. cbn [fst snd].
  split; [reflexivity |].
  induction Hlog as [| e t (l & f & ->) Ht IH]; cbn.
  - split; [| reflexivity]. intros [H | []]; discriminate H.
  - cbn in IH. destruct IH as [Hno Htext]. split; [| exact Htext].
    intros [H | [H | H]]; try discriminate H. apply Hno. now right.
Qed.

End MpFacts.

(** ** More on formatting and ranges *)

Module PrintfMore.
Import Printf Kernel PrintfFacts.

Lemma length_append (a b : string) :
String.length (a ++ b) = (String.length a + String.length b)%nat.
Proof. induction a as [| c a IH]; cbn; [reflexivity | now rewrite IH]. Qed.

Lemma digits_length b (n : nat) v : String.length (digits b n v) = n.
Proof.
revert v. induction n as [| n IH]; intros v; cbn [digits]; [reflexivity |].
rewrite length_append, IH. cbn. lia.
Qed.

Lemma pad_num_fits_length b (w : nat) v :
1 < b -> 0 <= v < b ^ Z.of_nat w -> (1 <= w)%nat ->
String.length (pad_num b true w v) = w.
Proof.
intros Hb Hv Hw. rewrite pad_num_fits by assumption. apply digits_length.
Qed.

(** A single digit, when no width is asked for. *)
Lemma pad_num_one_digit b v :
0 <= v < b -> String.length (pad_num b false 0 v) = 1%nat.
Proof.
intros Hv. unfold pad_num, num_len.
assert (Hn : ndigits (Z.to_nat (Z.log2 v)) b v = 1%nat).
{ destruct (Z.to_nat (Z.log2 v)); cbn; [reflexivity |].
  destruct (Z.ltb_spec v b); [reflexivity | lia]. }
rewrite Hn. cbn [Nat.sub spaces String.append]. apply digits_length.
Qed.

Lemma seq_text_app (t1 t2 : trace) :
seq_text (t1 ++ t2)%list = (seq_text t1 ++ seq_text t2)%string.
Proof.
induction t1 as [| e t1 IH]; [reflexivity |].
destruct e; cbn [app seq_text]; rewrite IH; [now rewrite append_assoc | reflexivity ..].
Qed.

Ltac measure_line :=
unfold sprintf; lazy -[pad_num signed_num String.append String.length];
repeat (rewrite ?length_append; cbn [String.length]).

Lemma line64_length a b s c d e f g h i :
0 <= a < 2 ^ 64 -> 0 <= b < 2 ^ 64 -> String.length s = 9%nat ->
0 <= c < 16 -> 0 <= e < 16 -> 0 <= f < 2 ^ 16 ->
0 <= g < 2 ^ 32 -> 0 <= h < 2 ^ 16 -> 0 <= i < 2 ^ 16 ->
String.length
  (sprintf " %016llX%016llX %s %X   %c %X   %04X %08X%04X%04X"
           [AInt a; AInt b; AStr s; AInt c; AChr d; AInt e; AInt f;
            AInt g; AInt h; AInt i]) = 75%nat.
Proof.
intros Ha Hb Hs Hc He Hf Hg Hh Hi. measure_line.
rewrite !pad_num_one_digit by assumption.
rewrite !pad_num_fits_length by (simpl; lia).
rewrite Hs. reflexivity.
Qed.

Lemma line32_length a b s c d e f :
0 <= a < 2 ^ 32 -> 0 <= b < 2 ^ 32 -> String.length s = 9%nat ->
0 <= c < 16 -> 0 <= e < 2 ^ 16 -> 0 <= f < 2 ^ 32 ->
String.length
  (sprintf " %08X%08X %s %X   %c %04X %08X"
           [AInt a; AInt b; AStr s; AInt c; AChr d; AInt e; AInt f]) = 47%nat.
Proof.
intros Ha Hb Hs Hc He Hf. measure_line.
rewrite !pad_num_one_digit by assumption.
rewrite !pad_num_fits_length by (simpl; lia).
rewrite Hs. reflexivity.
Qed.

End PrintfMore.

Module UtilMore.
Import Util.

Lemma zrange_app (a b : nat) : forall start,
zrange start (a + b) = zrange start a ++ zrange (start + Z.of_nat a) b.
Proof.
induction a as [| a IH]; intros start.
- cbn. f_equal. lia.
- cbn [Nat.add zrange app]. rewrite IH. do 3 f_equal. lia.
Qed.

Lemma zrange_in n : forall start p, In p (zrange start n) -> start <= p < start + Z.of_nat n.
Proof.
induction n as [| n IH]; intros start p Hin; [contradiction |].
cbn [zrange] in Hin. destruct Hin as [<- | Hin]; [lia |].
apply IH in Hin. lia.
Qed.

End UtilMore.

(** ** More on the interrupt descriptor table *)

Module IdtMore.
Import CInt Mem Printf Kernel Idt Util IdtSpec IdtExtra.
Import BitFacts UtilFacts PrintfFacts PrintfMore IdtFacts.

Lemma entry_count_range cfg idtr : 0 <= entry_count cfg idtr <= 8192.
Proof.
unfold entry_count.
pose proof (wrap_range 16 (size idtr) ltac:(lia)) as Hs. fold (u16 (size idtr)) in Hs.
destruct cfg; cbn [IDT_ENTRY_BYTES]; split;
  try (apply Z.div_pos; lia);
  apply Z.div_le_upper_bound; lia.
Qed.

Lemma num_idt_entries_count cfg idtr g :
num_idt_entries (fst (idt_setup cfg idtr g)) = entry_count cfg idtr.
Proof.
cbn. pose proof (entry_count_range cfg idtr) as Hn. unfold entry_count in *.
pose proof (wrap_range 16 (size idtr) ltac:(lia)) as Hs. fold (u16 (size idtr)) in Hs.
rewrite (int_small (u16 (size idtr) + 1)) by lia.
rewrite Z.quot_div_nonneg by (destruct cfg; cbn; lia).
apply int_small. lia.
Qed.

(** X1.  idt_show returns 0 whatever the globals held before.  After the
    summary line and the column titles it prints the entries 0, 1, ...,
    entry_count - 1 of the table at the base address of the IDTR register,
    in this order, one index and one descriptor line each, and then a
    blank line.  Entry [e] lies within the limit of the register:
    stride * (e + 1) <= size + 1. *)
Theorem idt_show_lines (cfg : config) (idtr : desc_ptr) (m : memory) (g : globals) :
fst (fst (idt_show cfg idtr m g)) = 0
/\ snd (idt_show cfg idtr m g)
   = snd (idt_setup cfg idtr g)
     ++ column_titles cfg
     :: flat_map (entry_lines cfg m (wrap (long_bits cfg) (address idtr)))
                 (zrange 0 (Z.to_nat (entry_count cfg idtr)))
     ++ [SeqPrintf (NL ++ NL) []]
/\ Forall (fun e => 0 <= e
                    /\ IDT_ENTRY_BYTES cfg * (e + 1) <= u16 (size idtr) + 1)
          (zrange 0 (Z.to_nat (entry_count cfg idtr))).
Proof.
split; [reflexivity |]. split.
- unfold idt_show.
  pose proof (num_idt_entries_count cfg idtr g) as Hn.
  destruct (idt_setup cfg idtr g) as [g1 t1] eqn:Hsetup. cbn [fst snd] in *.
  assert (Hidt : idt g1 = wrap (long_bits cfg) (address idtr)).
  { unfold idt_setup in Hsetup. injection Hsetup as <- _. reflexivity. }
  cbn [snd]. rewrite Hn, Hidt.
  rewrite (idt_walk_lines cfg m _ (entry_count cfg idtr) (Z.to_nat (entry_count cfg idtr)) 0)
    by (f_equal; lia).
  destruct cfg; reflexivity.
- apply Forall_forall. intros e Hin.
  apply In_nth with (d := -1) in Hin. destruct Hin as (k & Hk & <-).
  rewrite zrange_length in Hk. rewrite zrange_nth by assumption.
  pose proof (entry_count_range cfg idtr) as Hr.
  split; [lia |].
  assert (Hlt : Z.of_nat k + 1 <= entry_count cfg idtr) by lia.
  unfold entry_count in *.
  assert (Hs : 0 < IDT_ENTRY_BYTES cfg) by (destruct cfg; cbn; lia).
  pose proof (Z.mul_div_le (u16 (size idtr) + 1) (IDT_ENTRY_BYTES cfg) Hs). nia.
Qed.

(** X2.  A limit too small for one descriptor gives an empty table: the
    summary announces 0 entries and no entry line follows the titles. *)
Theorem idt_show_empty (cfg : config) (idtr : desc_ptr) (m : memory) (g : globals) :
u16 (size idtr) + 1 < IDT_ENTRY_BYTES cfg ->
num_idt_entries (snd (fst (idt_show cfg idtr m g))) = 0
/\ snd (idt_show cfg idtr m g)
   = snd (idt_setup cfg idtr g) ++ [column_titles cfg; SeqPrintf (NL ++ NL) []].
Proof.
intros Hsmall.
assert (Hzero : entry_count cfg idtr = 0).
{ unfold entry_count. apply Z.div_small.
  pose proof (wrap_range 16 (size idtr) ltac:(lia)) as Hs. fold (u16 (size idtr)) in Hs. lia. }
pose proof (num_idt_entries_count cfg idtr g) as Hn. rewrite Hzero in Hn.
unfold idt_show. destruct (idt_setup cfg idtr g) as [g1 t1]. cbn [fst snd] in *.
split; [exact Hn |].
rewrite Hn, idt_walk_step. destruct (Z_lt_dec 0 0); [lia |].
destruct cfg; reflexivity.
Qed.

Lemma idt_show_empty_witness :
u16 (size {| size := 6; address := 0 |}) + 1 < IDT_ENTRY_BYTES X86_64
/\ num_idt_entries
     (snd (fst (idt_show X86_64 {| size := 6; address := 0 |} (fun _ => x00)
                         {| dtr := {| size := 0; address := 0 |};
                            num_idt_entries := 7; idt := 0 |}))) = 0
/\ snd (idt_show X86_64 {| size := 6; address := 0 |} (fun _ => x00)
                 {| dtr := {| size := 0; address := 0 |}; num_idt_entries := 7; idt := 0 |})
   = snd (idt_setup X86_64 {| size := 6; address := 0 |}
                    {| dtr := {| size := 0; address := 0 |}; num_idt_entries := 7; idt := 0 |})
     ++ [column_titles X86_64; SeqPrintf (NL ++ NL) []].
Proof.
split; [vm_compute; reflexivity |].
apply (idt_show_empty X86_64 {| size := 6; address := 0 |}). vm_compute. reflexivity.
Defined.

Lemma load64_range m a : 0 <= load64 m a < 2 ^ 64.
Proof.
unfold load64. rewrite Z.lor_comm, lor_shiftl_add by (try apply load32_range; lia).
pose proof (load32_range m a). pose proof (load32_range m (a + 4)). lia.
Qed.

Lemma idt_print_type_length type : String.length (idt_print_type type) = 9%nat.
Proof.
unfold idt_print_type.
destruct (type =? GATE_INTERRUPT); [reflexivity |].
destruct (type =? GATE_TRAP); [reflexivity |].
destruct (type =? GATE_TASK); reflexivity.
Qed.

(** X3.  Every descriptor line of idt_show has the same width, whatever the
    entry holds: 75 characters on the 64-bit layout and 47 on the 32-bit
    layout, so the columns under the titles line up; in particular the
    type is always one of four labels of nine characters. *)
Theorem entry_line_width (cfg : config) (m : memory) (idt entry : Z) :
String.length (seq_text [show_entry cfg m idt entry]) = line_width cfg.
Proof.
destruct cfg; cbn [seq_text show_entry line_width]; rewrite append_nil_r.
- apply line64_length;
    try apply load64_range; try apply idt_print_type_length.
  + pose proof (bitfield_range (gate_struct64.raw_low (gate_struct64.at_index m idt entry)) 45 2 ltac:(lia)).
    unfold gate_struct64.dpl. lia.
  + pose proof (bitfield_range (gate_struct64.raw_low (gate_struct64.at_index m idt entry)) 32 3 ltac:(lia)).
    unfold gate_struct64.ist. lia.
  + apply (bitfield_range _ 16 16). lia.
  + apply (bitfield_range _ 0 32). lia.
  + apply (bitfield_range _ 48 16). lia.
  + apply (bitfield_range _ 0 16). lia.
- apply line32_length;
    try apply load32_range; try apply idt_print_type_length.
  + pose proof (bitfield_range (desc_struct.b (desc_struct.at_index m idt entry)) 13 2 ltac:(lia)).
    unfold desc_struct.dpl. lia.
  + apply (bitfield_range _ 16 16). lia.
  + apply (wrap_range 32). lia.
Qed.

End IdtMore.

(** ** More on the IO-APIC *)

Module IoapicMore.
Import CInt Printf Kernel Ioapic Util IoapicSpec IoapicExtra Unload.
Import BitFacts UtilFacts UtilMore PrintfFacts PrintfMore IoapicFacts.
Local Open Scope io_scope.

(** ioapic_setup, in full. *)
Lemma ioapic_setup_full hw base w :
exists ret w' msgs,
  ioapic_setup hw base w = Some (ret, w')
  /\ mapped w' = (brk w, u32 base) :: mapped w
  /\ brk w' = brk w + PAGE_SIZE
  /\ ioapic_addr (vars w') = brk w
  /\ log w' = log w ++ IoRemap (u32 base) (brk w)
                    :: setup_reads hw (u32 base) (brk w) ++ msgs
  /\ Forall (fun e => exists f, e = Printk KERN_ERR f) msgs
  /\ ((ret = 0
       /\ Z.land (u32 (hw (u32 base) 0)) (Z.lnot IOAPIC_REG_ID_MASK_ID) = 0
       /\ Z.land (Z.land (u32 (hw (u32 base) 1)) (Z.lnot IOAPIC_REG_VER_MASK_VER))
                 (Z.lnot IOAPIC_REG_VER_MASK_MAX_ENTRIES) = 0
       /\ id (vars w') = Z.shiftr (Z.land (u32 (hw (u32 base) 0)) IOAPIC_REG_ID_MASK_ID) 24
       /\ version (vars w') = Z.shiftr (Z.land (u32 (hw (u32 base) 1)) IOAPIC_REG_VER_MASK_VER) 0
       /\ max_entries (vars w')
          = Z.shiftr (Z.land (u32 (hw (u32 base) 1)) IOAPIC_REG_VER_MASK_MAX_ENTRIES) 16)
      \/ (ret = - ENODEV
          /\ (Z.land (u32 (hw (u32 base) 0)) (Z.lnot IOAPIC_REG_ID_MASK_ID) <> 0
              \/ Z.land (Z.land (u32 (hw (u32 base) 1)) (Z.lnot IOAPIC_REG_VER_MASK_VER))
                        (Z.lnot IOAPIC_REG_VER_MASK_MAX_ENTRIES) <> 0)
          /\ id (vars w') = id (vars w)
          /\ version (vars w') = version (vars w)
          /\ max_entries (vars w') = max_entries (vars w))).
Proof.
unfold ioapic_setup, bind at 1, ioremap_nocache.
unfold bind at 1, read_vars. unfold bind at 1, write_vars, set_vars.
cbn [vars mapped brk index_reg log].
set (w0 := {| vars := _; mapped := _; brk := _; index_reg := _; log := _ |}).
assert (Hmap0 : lookup (brk w) (mapped w0) = Some (u32 base))
  by (cbn; now rewrite Z.eqb_refl).
unfold bind at 1.
destruct (ioapic_read_run hw (brk w) (u32 base) IOAPIC_REG_ID w0 Hmap0)
  as (w1 & -> & Hv1 & Hm1 & Hb1 & Hl1).
unfold bind at 1.
assert (Hmap1 : lookup (brk w) (mapped w1) = Some (u32 base))
  by (rewrite Hm1; exact Hmap0).
destruct (ioapic_read_run hw (brk w) (u32 base) IOAPIC_REG_VER w1 Hmap1)
  as (w2 & -> & Hv2 & Hm2 & Hb2 & Hl2).
change (u8 IOAPIC_REG_ID) with 0 in *. change (u8 IOAPIC_REG_VER) with 1 in *.
set (reg_id := u32 (hw (u32 base) 0)) in *.
set (reg_ver := u32 (hw (u32 base) 1)) in *.
assert (Hlog : log w2 = log w ++ IoRemap (u32 base) (brk w)
                               :: setup_reads hw (u32 base) (brk w)).
{ rewrite Hl2, Hl1. subst w0. cbn [log]. unfold setup_reads.
  repeat (rewrite <- ?app_assoc; cbn [app]). reflexivity. }
assert (Hvars : vars w2 = {| ioapic_addr := brk w; id := id (vars w);
                             version := version (vars w);
                             max_entries := max_entries (vars w) |})
  by (rewrite Hv2, Hv1; reflexivity).
assert (Hmapped : mapped w2 = (brk w, u32 base) :: mapped w)
  by (rewrite Hm2, Hm1; reflexivity).
assert (Hbrk : brk w2 = brk w + PAGE_SIZE) by (rewrite Hb2, Hb1; reflexivity).
destruct (Z.eqb_spec (Z.land reg_id (Z.lnot IOAPIC_REG_ID_MASK_ID)) 0) as [Hid | Hid];
  cbn [negb].
2:{ unfold bind, mod_err, emit, ret. eexists _, _, [_].
    split; [reflexivity |]. cbn [vars mapped brk log].
    rewrite Hlog, Hvars, Hmapped, Hbrk. cbn [ioapic_addr id version max_entries].
    rewrite <- app_assoc. cbn [app].
    repeat split; try reflexivity.
    - repeat constructor. eexists. reflexivity.
    - right. repeat split; auto. }
destruct (Z.eqb_spec (Z.land (Z.land reg_ver (Z.lnot IOAPIC_REG_VER_MASK_VER))
                             (Z.lnot IOAPIC_REG_VER_MASK_MAX_ENTRIES)) 0)
  as [Hver | Hver]; cbn [negb].
2:{ unfold bind, mod_err, emit, ret. eexists _, _, [_].
    split; [reflexivity |]. cbn [vars mapped brk log].
    rewrite Hlog, Hvars, Hmapped, Hbrk. cbn [ioapic_addr id version max_entries].
    rewrite <- app_assoc. cbn [app].
    repeat split; try reflexivity.
    - repeat constructor. eexists. reflexivity.
    - right. repeat split; auto. }
unfold bind, write_vars, set_vars, ret. eexists _, _, [].
split; [reflexivity |]. cbn [vars mapped brk log ioapic_addr id version max_entries].
rewrite Hlog, Hmapped, Hbrk. rewrite app_nil_r.
repeat split; try reflexivity; [constructor |].
left. repeat split; auto.
Qed.

(** A field cut out with a shifted mask is the bit-field. *)
Lemma masked_field x k n :
0 <= k -> 0 <= n -> Z.shiftr (Z.land x (Z.shiftl (Z.ones n) k)) k = bitfield x k n.
Proof.
intros Hk Hn. unfold bitfield. apply Z.bits_inj'. intros i Hi.
rewrite Z.shiftr_spec, !Z.land_spec, Z.shiftr_spec, Z.shiftl_spec by lia.
replace (i + k - k) with i by lia. reflexivity.
Qed.

Lemma no_bit_outside_id x :
0 <= x -> Z.land x (Z.lnot IOAPIC_REG_ID_MASK_ID) = 0 ->
forall i, 0 <= i -> Z.testbit x i = true -> 24 <= i <= 27.
Proof.
intros Hx Hz i Hi Hbit.
destruct (Z_le_dec 24 i) as [H1 | H1]; [destruct (Z_le_dec i 27) as [H2 | H2] |];
  [lia | exfalso | exfalso];
  apply (proj2 (id_check x Hx)); try assumption;
  exists i; unfold id_field; repeat split; try assumption; lia.
Qed.

Lemma no_bit_outside_ver x :
0 <= x ->
Z.land (Z.land x (Z.lnot IOAPIC_REG_VER_MASK_VER))
       (Z.lnot IOAPIC_REG_VER_MASK_MAX_ENTRIES) = 0 ->
forall i, 0 <= i -> Z.testbit x i = true -> i <= 7 \/ 16 <= i <= 23.
Proof.
intros Hx Hz i Hi Hbit.
destruct (Z_le_dec i 7) as [H1 | H1]; [now left |].
destruct (Z_le_dec 16 i) as [H2 | H2]; [destruct (Z_le_dec i 23) as [H3 | H3] |];
  [now right | exfalso | exfalso];
  apply (proj2 (ver_check x Hx)); try assumption;
  exists i; unfold ver_field; repeat split; try assumption; lia.
Qed.

(** X4.  A successful ioapic_setup decodes the two registers without loss:
    the fields fit their widths (id below 16, version and max_entries
    below 256) and put back at their positions they give the register
    values that were read. *)
Theorem setup_decodes_registers (hw : Z -> Z -> Z) (base : Z) (w w' : world) :
ioapic_setup hw base w = Some (0, w') ->
fields_in_range (vars w')
/\ u32 (hw (u32 base) IOAPIC_REG_ID) = Z.shiftl (id (vars w')) 24
/\ u32 (hw (u32 base) IOAPIC_REG_VER)
   = Z.lor (version (vars w')) (Z.shiftl (max_entries (vars w')) 16).
Proof.
intros Hsetup.
destruct (ioapic_setup_full hw base w)
  as (ret & w1 & msgs & Hrun & _ & _ & _ & _ & _ & Hcase).
rewrite Hsetup in Hrun. injection Hrun as <- <-.
destruct Hcase as [(_ & Hid & Hver & Eid & Ever & Emax) | (Hret & _)];
  [| discriminate Hret].
change IOAPIC_REG_ID with 0. change IOAPIC_REG_VER with 1.
set (reg_id := u32 (hw (u32 base) 0)) in *.
set (reg_ver := u32 (hw (u32 base) 1)) in *.
assert (Hid0 : 0 <= reg_id) by (apply (wrap_range 32); lia).
assert (Hver0 : 0 <= reg_ver) by (apply (wrap_range 32); lia).
change IOAPIC_REG_ID_MASK_ID with (Z.shiftl (Z.ones 4) 24) in Eid.
change IOAPIC_REG_VER_MASK_VER with (Z.shiftl (Z.ones 8) 0) in Ever.
change IOAPIC_REG_VER_MASK_MAX_ENTRIES with (Z.shiftl (Z.ones 8) 16) in Emax.
rewrite masked_field in Eid, Ever, Emax by lia.
rewrite Eid, Ever, Emax.
split; [| split].
- unfold fields_in_range. rewrite Eid, Ever, Emax.
  pose proof (bitfield_range reg_id 24 4 ltac:(lia)).
  pose proof (bitfield_range reg_ver 0 8 ltac:(lia)).
  pose proof (bitfield_range reg_ver 16 8 ltac:(lia)). lia.
- unfold bitfield. apply Z.bits_inj'. intros i Hi.
  destruct (Z_lt_dec i 24) as [Hlt | Hge].
  + rewrite Z.shiftl_spec_low by assumption.
    destruct (Z.testbit reg_id i) eqn:Hbit; [| reflexivity].
    pose proof (no_bit_outside_id reg_id Hid0 Hid i Hi Hbit). lia.
  + rewrite Z.shiftl_spec, Z.land_spec, Z.shiftr_spec, Z.testbit_ones by lia.
    replace (i - 24 + 24) with i by lia.
    destruct (Z.testbit reg_id i) eqn:Hbit; [| reflexivity].
    pose proof (no_bit_outside_id reg_id Hid0 Hid i Hi Hbit).
    replace (0 <=? i - 24) with true by (symmetry; apply Z.leb_le; lia).
    replace (i - 24 <? 4) with true by (symmetry; apply Z.ltb_lt; lia).
    reflexivity.
- unfold bitfield. apply Z.bits_inj'. intros i Hi.
  rewrite Z.lor_spec, Z.land_spec, Z.shiftr_spec, Z.testbit_ones by lia.
  rewrite Z.add_0_r.
  destruct (Z.testbit reg_ver i) eqn:Hbit.
  + pose proof (no_bit_outside_ver reg_ver Hver0 Hver i Hi Hbit) as Hfield.
    destruct (Z_lt_dec i 16) as [Hlt | Hge].
    * rewrite Z.shiftl_spec_low, orb_false_r by assumption.
      replace (0 <=? i) with true by (symmetry; apply Z.leb_le; lia).
      replace (i <? 8) with true by (symmetry; apply Z.ltb_lt; lia).
      reflexivity.
    * rewrite Z.shiftl_spec, Z.land_spec, Z.shiftr_spec, Z.testbit_ones by lia.
      replace (i - 16 + 16) with i by lia. rewrite Hbit.
      replace (0 <=? i - 16) with true by (symmetry; apply Z.leb_le; lia).
      replace (i - 16 <? 8) with true by (symmetry; apply Z.ltb_lt; lia).
      symmetry. apply orb_true_r.
  + cbn [andb orb].
    destruct (Z_lt_dec i 16) as [Hlt | Hge].
    * rewrite Z.shiftl_spec_low by assumption. reflexivity.
    * rewrite Z.shiftl_spec, Z.land_spec, Z.shiftr_spec by lia.
      replace (i - 16 + 16) with i by lia. rewrite Hbit. reflexivity.
Qed.

Lemma setup_decodes_registers_witness :
ioapic_setup hw_24 0xFEC00000 boot = Some (0, world_after_setup hw_24 0xFEC00000)
/\ fields_in_range (vars (world_after_setup hw_24 0xFEC00000))
/\ u32 (hw_24 (u32 0xFEC00000) IOAPIC_REG_ID)
   = Z.shiftl (id (vars (world_after_setup hw_24 0xFEC00000))) 24
/\ u32 (hw_24 (u32 0xFEC00000) IOAPIC_REG_VER)
   = Z.lor (version (vars (world_after_setup hw_24 0xFEC00000)))
           (Z.shiftl (max_entries (vars (world_after_setup hw_24 0xFEC00000))) 16).
Proof.
split; [vm_compute; reflexivity |].
apply (setup_decodes_registers hw_24 0xFEC00000 boot). vm_compute. reflexivity.
Defined.

Lemma unmapped_app t1 t2 : unmapped (t1 ++ t2) = unmapped t1 ++ unmapped t2.
Proof.
induction t1 as [| e t1 IH]; [reflexivity |].
destruct e; cbn; rewrite IH; reflexivity.
Qed.

Lemma printk_only_unmapped msgs :
Forall (fun e => exists f, e = Printk KERN_ERR f) msgs -> unmapped msgs = [].
Proof.
induction 1 as [| e t (f & ->) _ IH]; [reflexivity | exact IH].
Qed.

Lemma printk_only_text msgs :
Forall (fun e => exists f, e = Printk KERN_ERR f) msgs -> seq_text msgs = EmptyString.
Proof.
induction 1 as [| e t (f & ->) _ IH]; [reflexivity | exact IH].
Qed.

(** X5.  A failed ioapic_setup returns -ENODEV having changed one global
    only: [ioapic_addr] is the new window, while id, version and
    max_entries are still those of the last successful setup.  It returns
    with the window it mapped still mapped: it releases nothing. *)
Theorem setup_failure_is_stale (hw : Z -> Z -> Z) (base : Z) (w w' : world) (ret : Z) :
ioapic_setup hw base w = Some (ret, w') ->
ret <> 0 ->
ret = - ENODEV
/\ id (vars w') = id (vars w)
/\ version (vars w') = version (vars w)
/\ max_entries (vars w') = max_entries (vars w)
/\ ioapic_addr (vars w') = brk w
/\ mapped w' = (brk w, u32 base) :: mapped w
/\ exists t, log w' = log w ++ t /\ unmapped t = [].
Proof.
intros Hsetup Hret.
destruct (ioapic_setup_full hw base w)
  as (r & w1 & msgs & Hrun & Hm & _ & Ha & Hl & Hmsgs & Hcase).
rewrite Hsetup in Hrun. injection Hrun as <- <-.
destruct Hcase as [(Hzero & _) | (Herr & _ & Eid & Ever & Emax)]; [contradiction |].
repeat split; try assumption.
eexists. split; [exact Hl |].
cbn [unmapped]. unfold setup_reads. cbn [app unmapped].
now apply printk_only_unmapped.
Qed.

Lemma setup_failure_is_stale_witness :
ioapic_setup hw_ones 0xFEC00000 boot = Some (- ENODEV, world_after_setup hw_ones 0xFEC00000)
/\ - ENODEV <> 0
/\ - ENODEV = - ENODEV
/\ id (vars (world_after_setup hw_ones 0xFEC00000)) = id (vars boot)
/\ version (vars (world_after_setup hw_ones 0xFEC00000)) = version (vars boot)
/\ max_entries (vars (world_after_setup hw_ones 0xFEC00000)) = max_entries (vars boot)
/\ ioapic_addr (vars (world_after_setup hw_ones 0xFEC00000)) = brk boot
/\ mapped (world_after_setup hw_ones 0xFEC00000) = (brk boot, u32 0xFEC00000) :: mapped boot
/\ exists t, log (world_after_setup hw_ones 0xFEC00000) = log boot ++ t /\ unmapped t = [].
Proof.
assert (Hrun : ioapic_setup hw_ones 0xFEC00000 boot
               = Some (- ENODEV, world_after_setup hw_ones 0xFEC00000))
  by (vm_compute; reflexivity).
assert (Hne : - ENODEV <> 0) by (vm_compute; discriminate).
split; [exact Hrun |]. split; [exact Hne |].
exact (setup_failure_is_stale hw_ones 0xFEC00000 boot _ _ Hrun Hne).
Defined.

(** ioapic_show, in full. *)
Lemma ioapic_show_full hw phys w :
lookup (ioapic_addr (vars w)) (mapped w) = Some phys ->
exists w',
  ioapic_show hw w = Some (0, w')
  /\ vars w' = vars w
  /\ mapped w' = remove_window (ioapic_addr (vars w)) (mapped w)
  /\ brk w' = brk w
  /\ log w' = log w ++ show_trace hw phys (vars w)
                                  (fun p => u8 (0x10 + 2 * p))
                                  (fun p => u8 (0x11 + 2 * p)).
Proof.
intros Hmap. unfold ioapic_show, bind at 1, read_vars.
unfold bind at 1, seq_printf, emit.
set (w0 := {| vars := _; mapped := _; brk := _; index_reg := _; log := _ |}).
unfold bind at 1.
destruct (ioapic_walk_run hw (ioapic_addr (vars w)) phys (max_entries (vars w))
            (Z.to_nat (max_entries (vars w) + 1)) 0 w0 ltac:(f_equal; lia) Hmap)
  as (w1 & -> & Hv1 & Hm1 & Hb1 & Hl1).
unfold bind, iounmap, ret. eexists. split; [reflexivity |].
cbn [vars mapped brk log]. rewrite Hv1, Hm1, Hb1, Hl1. subst w0. cbn [vars mapped brk log].
unfold show_trace, pins. rewrite <- !app_assoc. cbn [app].
repeat split.
Qed.

(** One open, in full: it never fails, it returns 0, and it leaves the
    windows as they were. *)
Lemma open_full hw base w :
exists w' msgs,
  (ioapic_setup hw base ;; single_open (ioapic_show hw)) w = Some (0, w')
  /\ mapped w' = mapped w
  /\ brk w' = brk w + PAGE_SIZE
  /\ ioapic_addr (vars w') = brk w
  /\ log w' = log w ++ IoRemap (u32 base) (brk w) :: open_trace hw (u32 base) (vars w') msgs
  /\ Forall (fun e => exists f, e = Printk KERN_ERR f) msgs
  /\ ((valid_registers hw base
       /\ id (vars w') = bitfield (u32 (hw (u32 base) 0)) 24 4
       /\ version (vars w') = bitfield (u32 (hw (u32 base) 1)) 0 8
       /\ max_entries (vars w') = bitfield (u32 (hw (u32 base) 1)) 16 8)
      \/ (~ valid_registers hw base
          /\ id (vars w') = id (vars w)
          /\ version (vars w') = version (vars w)
          /\ max_entries (vars w') = max_entries (vars w))).
Proof.
unfold bind, single_open.
destruct (ioapic_setup_full hw base w)
  as (r1 & w1 & msgs & -> & Hm1 & Hb1 & Ha1 & Hl1 & Hmsgs & Hcase).
assert (Hmap : lookup (ioapic_addr (vars w1)) (mapped w1) = Some (u32 base))
  by (rewrite Hm1, Ha1; cbn; now rewrite Z.eqb_refl).
destruct (ioapic_show_full hw (u32 base) w1 Hmap) as (w2 & -> & Hv2 & Hm2 & Hb2 & Hl2).
exists w2, msgs. split; [reflexivity |].
rewrite Hv2, Hm2, Hb2, Hl2, Hm1, Ha1, Hb1, Hl1.
split; [cbn; now rewrite Z.eqb_refl |].
split; [reflexivity |]. split; [reflexivity |].
split.
{ unfold open_trace. rewrite Ha1. repeat (rewrite <- ?app_assoc; cbn [app]). reflexivity. }
split; [exact Hmsgs |].
assert (Hid0 : 0 <= u32 (hw (u32 base) 0)) by (apply (wrap_range 32); lia).
assert (Hver0 : 0 <= u32 (hw (u32 base) 1)) by (apply (wrap_range 32); lia).
unfold valid_registers. change IOAPIC_REG_ID with 0. change IOAPIC_REG_VER with 1.
rewrite <- (id_check _ Hid0), <- (ver_check _ Hver0).
destruct Hcase as [(_ & Hid & Hver & Eid & Ever & Emax) | (_ & Hbad & Eid & Ever & Emax)].
- left.
  change IOAPIC_REG_ID_MASK_ID with (Z.shiftl (Z.ones 4) 24) in Eid.
  change IOAPIC_REG_VER_MASK_VER with (Z.shiftl (Z.ones 8) 0) in Ever.
  change IOAPIC_REG_VER_MASK_MAX_ENTRIES with (Z.shiftl (Z.ones 8) 16) in Emax.
  rewrite masked_field in Eid, Ever, Emax by lia.
  repeat split; try assumption; intros H; apply H; assumption.
- right. repeat split; try assumption. intros [H1 H2].
  destruct Hbad as [H | H]; [apply H1 | apply H2]; exact H.
Qed.

Lemma show_trace_accesses hw phys g rl rh :
Forall (viewer_access (ioapic_addr g)) (show_trace hw phys g rl rh).
Proof.
unfold show_trace. constructor; [exact Logic.I |].
apply Forall_app. split.
- apply Forall_flat_map, Forall_forall. intros p _.
  unfold pin_events. repeat constructor.
- repeat constructor.
Qed.

Lemma printk_only_accesses va msgs :
Forall (fun e => exists f, e = Printk KERN_ERR f) msgs -> Forall (viewer_access va) msgs.
Proof.
intros H. eapply Forall_impl; [| exact H]. intros e (f & ->). exact Logic.I.
Qed.

Lemma open_trace_accesses hw phys g msgs :
Forall (fun e => exists f, e = Printk KERN_ERR f) msgs ->
Forall (viewer_access (ioapic_addr g)) (open_trace hw phys g msgs).
Proof.
intros Hmsgs. unfold open_trace. apply Forall_app. split.
- unfold setup_reads. repeat constructor.
- apply Forall_app. split; [now apply printk_only_accesses | apply show_trace_accesses].
Qed.

(** X6.  The viewer only reads the controller.  In one open of either proc
    file, every store into the device window goes to the index register
    and every load comes from the data register, all through the window
    that this open mapped: the data register is never written and the
    end-of-interrupt register never touched. *)
Theorem open_is_read_only (hw : Z -> Z -> Z) (ioapic0_base ioapic1_base : Z) (w : world) :
(exists w' t,
    ioapic0_open hw ioapic0_base w = Some (0, w')
    /\ log w' = log w ++ t
    /\ Forall (viewer_access (brk w)) t)
/\ (exists w' t,
    ioapic1_open hw ioapic1_base w = Some (0, w')
    /\ log w' = log w ++ t
    /\ Forall (viewer_access (brk w)) t).
Proof.
split.
- destruct (open_full hw ioapic0_base w) as (w' & msgs & Hrun & _ & _ & Ha & Hl & Hmsgs & _).
  exists w'. eexists. split; [exact Hrun |]. split; [exact Hl |].
  constructor; [exact Logic.I |]. rewrite <- Ha. now apply open_trace_accesses.
- destruct (open_full hw ioapic1_base w) as (w' & msgs & Hrun & _ & _ & Ha & Hl & Hmsgs & _).
  exists w'. eexists. split; [exact Hrun |]. split; [exact Hl |].
  constructor; [exact Logic.I |]. rewrite <- Ha. now apply open_trace_accesses.
Qed.

Lemma pin_events_text hw phys va va' rl rh p :
seq_text (pin_events hw phys va rl rh p) = seq_text (pin_events hw phys va' rl rh p).
Proof. reflexivity. Qed.

Lemma flat_map_text (f f' : Z -> trace) l :
(forall p, seq_text (f p) = seq_text (f' p)) ->
seq_text (flat_map f l) = seq_text (flat_map f' l).
Proof.
intros H. induction l as [| p l IH]; [reflexivity |].
cbn [flat_map]. rewrite !seq_text_app, H, IH. reflexivity.
Qed.

(** The text of a report depends on the three decoded fields only. *)
Lemma show_trace_text hw phys g g' rl rh :
id g = id g' -> version g = version g' -> max_entries g = max_entries g' ->
seq_text (show_trace hw phys g rl rh) = seq_text (show_trace hw phys g' rl rh).
Proof.
intros Hid Hver Hmax. unfold show_trace. cbn [seq_text].
rewrite Hid, Hver, Hmax. f_equal.
rewrite !seq_text_app. f_equal.
apply flat_map_text. intros p. apply pin_events_text.
Qed.

Lemma open_trace_text hw phys g msgs :
Forall (fun e => exists f, e = Printk KERN_ERR f) msgs ->
seq_text (open_trace hw phys g msgs)
= seq_text (show_trace hw phys g (fun p => u8 (0x10 + 2 * p)) (fun p => u8 (0x11 + 2 * p))).
Proof.
intros Hmsgs. unfold open_trace. rewrite !seq_text_app.
rewrite (printk_only_text msgs Hmsgs). reflexivity.
Qed.

(** X7.  Opening the same controller twice in a row renders the same
    report text both times, whether its registers pass the validation or
    not and whatever the module had decoded before. *)
Theorem open_twice_same_text (hw : Z -> Z -> Z) (ioapic0_base : Z) (w : world) :
exists w1 w2 t1 t2,
  ioapic0_open hw ioapic0_base w = Some (0, w1)
  /\ ioapic0_open hw ioapic0_base w1 = Some (0, w2)
  /\ log w1 = log w ++ t1
  /\ log w2 = log w1 ++ t2
  /\ seq_text t1 = seq_text t2.
Proof.
destruct (open_full hw ioapic0_base w)
  as (w1 & msgs1 & Hrun1 & _ & _ & _ & Hl1 & Hmsgs1 & Hcase1).
destruct (open_full hw ioapic0_base w1)
  as (w2 & msgs2 & Hrun2 & _ & _ & _ & Hl2 & Hmsgs2 & Hcase2).
exists w1, w2. do 2 eexists.
split; [exact Hrun1 |]. split; [exact Hrun2 |].
split; [exact Hl1 |]. split; [exact Hl2 |].
cbn [seq_text]. rewrite !open_trace_text by assumption.
apply show_trace_text;
  destruct Hcase1 as [(Hv1 & Ei1 & Ev1 & Em1) | (Hn1 & Ei1 & Ev1 & Em1)];
  destruct Hcase2 as [(Hv2 & Ei2 & Ev2 & Em2) | (Hn2 & Ei2 & Ev2 & Em2)];
  try contradiction; congruence.
Qed.

(** Two zero-padded hexadecimal words of 8 digits read as the 16 digits of
    the 64-bit value they form. *)
Lemma hex_8_8 hi lo :
0 <= hi < 2 ^ 32 -> 0 <= lo < 2 ^ 32 ->
(pad_num 16 true 8 hi ++ pad_num 16 true 8 lo)%string = digits 16 16 (hi * 2 ^ 32 + lo).
Proof.
intros Hhi Hlo.
rewrite !pad_num_fits by (simpl; lia).
change 16%nat with (8 + 8)%nat.
rewrite digits_split by lia.
change (16 ^ Z.of_nat 8) with (2 ^ 32).
rewrite Z.add_comm, Z.div_add, (Z.div_small lo) by lia. cbn [Z.add].
f_equal.
rewrite <- (digits_mod 16 8 (lo + hi * 2 ^ 32)) by lia.
change (16 ^ Z.of_nat 8) with (2 ^ 32).
rewrite Z.mod_add, Z.mod_small by lia. reflexivity.
Qed.

Lemma pin_line_split pin hi lo :
sprintf "%03d: %08X%08X" [AInt pin; AInt hi; AInt lo]
= (signed_num true 3 pin ++ ": " ++ (pad_num 16 true 8 hi ++ pad_num 16 true 8 lo))%string.
Proof. run_format. reflexivity. Qed.

Lemma pin_events_pin_text hw phys va rl rh pin :
0 <= pin < 1000 ->
seq_text (pin_events hw phys va rl rh pin)
= pin_text pin (u32 (hw phys rh)) (u32 (hw phys rl)).
Proof.
intros Hpin. unfold pin_events, pin_text. cbn [seq_text].
rewrite pin_line_split, hex_8_8 by (apply (wrap_range 32); lia).
unfold signed_num. destruct (Z.ltb_spec pin 0) as [Hneg | _]; [lia |].
rewrite pad_num_fits by (simpl; lia).
rewrite append_nil_r.
destruct (Z.rem pin 3 =? 0); unfold sprintf; cbn [format String.append NL];
  reflexivity.
Qed.

Lemma join_flat_map (f : Z -> trace) (txt : Z -> string) l :
(forall p, In p l -> seq_text (f p) = txt p) ->
seq_text (flat_map f l) = join (map txt l).
Proof.
induction l as [| p l IH]; intros H; [reflexivity |].
cbn [flat_map map join]. rewrite seq_text_app.
rewrite (H p) by now left.
rewrite IH; [reflexivity |].
intros q Hq. apply H. now right.
Qed.

(** X8.  ioapic_show on a table of at most 256 pins, run with the window
    of the controller mapped, returns 0 and renders the summary line, one
    entry per pin 0 .. max_entries and a blank line.  An entry is its
    separator (a new line before pins 0, 3, 6, ..., four blanks
    otherwise), the pin in three decimal digits, a colon, and the 64-bit
    redirection entry in sixteen hexadecimal digits: the word read second,
    from register (0x11 + 2*pin) mod 256, above the word read first, from
    register (0x10 + 2*pin) mod 256 (the register number is a byte). *)
Theorem report_text (hw : Z -> Z -> Z) (phys : Z) (w : world) :
lookup (ioapic_addr (vars w)) (mapped w) = Some phys ->
max_entries (vars w) <= 255 ->
exists w' t,
  ioapic_show hw w = Some (0, w')
  /\ log w' = log w ++ t
  /\ seq_text t
     = (sprintf (NL ++ "IO-APIC    ID %X    Version: %02X    Max entries: %d" ++ NL)
                [AInt (id (vars w)); AInt (version (vars w));
                 AInt (int (u32 (max_entries (vars w) + 1)))]
        ++ join (map (fun p => pin_text p (u32 (hw phys (u8 (0x11 + 2 * p))))
                                        (u32 (hw phys (u8 (0x10 + 2 * p)))))
                     (pins (max_entries (vars w))))
        ++ NL ++ NL)%string.
Proof.
intros Hmap Hmax.
destruct (ioapic_show_full hw phys w Hmap) as (w' & Hrun & _ & _ & _ & Hl).
exists w'. eexists. split; [exact Hrun |]. split; [exact Hl |].
unfold show_trace. cbn [seq_text]. f_equal.
rewrite seq_text_app. f_equal.
apply (join_flat_map _ (fun p => pin_text p (u32 (hw phys (u8 (0x11 + 2 * p))))
                                          (u32 (hw phys (u8 (0x10 + 2 * p)))))).
intros p Hin. apply pin_events_pin_text.
unfold pins in Hin. apply zrange_in in Hin. lia.
Qed.

Lemma report_text_witness :
lookup (ioapic_addr (vars (world_after_setup hw_121 0xFEC00000)))
       (mapped (world_after_setup hw_121 0xFEC00000)) = Some 0xFEC00000
/\ max_entries (vars (world_after_setup hw_121 0xFEC00000)) <= 255
/\ exists w' t,
     ioapic_show hw_121 (world_after_setup hw_121 0xFEC00000) = Some (0, w')
     /\ log w' = log (world_after_setup hw_121 0xFEC00000) ++ t
     /\ seq_text t
        = (sprintf (NL ++ "IO-APIC    ID %X    Version: %02X    Max entries: %d" ++ NL)
                   [AInt (id (vars (world_after_setup hw_121 0xFEC00000)));
                    AInt (version (vars (world_after_setup hw_121 0xFEC00000)));
                    AInt (int (u32 (max_entries (vars (world_after_setup hw_121 0xFEC00000)) + 1)))]
           ++ join (map (fun p => pin_text p (u32 (hw_121 0xFEC00000 (u8 (0x11 + 2 * p))))
                                           (u32 (hw_121 0xFEC00000 (u8 (0x10 + 2 * p)))))
                        (pins (max_entries (vars (world_after_setup hw_121 0xFEC00000)))))
           ++ NL ++ NL)%string.
Proof.
split; [vm_compute; reflexivity |].
split; [vm_compute; discriminate |].
apply (report_text hw_121 0xFEC00000 (world_after_setup hw_121 0xFEC00000)).
- vm_compute. reflexivity.
- vm_compute. discriminate.
Defined.

Lemma created_app t1 t2 : created (t1 ++ t2) = created t1 ++ created t2.
Proof.
induction t1 as [| e t1 IH]; [reflexivity |].
destruct e; cbn; rewrite IH; reflexivity.
Qed.

Lemma created_none t : Forall no_proc_create t -> created t = [].
Proof.
induction 1 as [| e t He _ IH]; [reflexivity |].
destruct e; cbn; try exact IH. contradiction.
Qed.

Lemma silent_text t : Forall silent t -> seq_text t = EmptyString /\ unmapped t = [].
Proof.
induction 1 as [| e t He _ IH]; [split; reflexivity |].
destruct e; cbn; try exact IH; contradiction.
Qed.

(** What one ioapic_setup adds to the log creates no proc file, prints
    nothing on a report and releases no window. *)
Lemma setup_log_quiet hw phys va msgs :
Forall (fun e => exists f, e = Printk KERN_ERR f) msgs ->
Forall no_proc_create (IoRemap phys va :: setup_reads hw phys va ++ msgs)
/\ Forall silent (IoRemap phys va :: setup_reads hw phys va ++ msgs).
Proof.
intros Hmsgs. split; (constructor; [exact Logic.I |]); apply Forall_app; split;
  try (unfold setup_reads; repeat constructor);
  (eapply Forall_impl; [| exact Hmsgs]); intros e (f & ->); exact Logic.I.
Qed.

Lemma valid_iff_masks hw base :
valid_registers hw base <->
Z.land (u32 (hw (u32 base) 0)) (Z.lnot IOAPIC_REG_ID_MASK_ID) = 0
/\ Z.land (Z.land (u32 (hw (u32 base) 1)) (Z.lnot IOAPIC_REG_VER_MASK_VER))
          (Z.lnot IOAPIC_REG_VER_MASK_MAX_ENTRIES) = 0.
Proof.
assert (Hid0 : 0 <= u32 (hw (u32 base) 0)) by (apply (wrap_range 32); lia).
assert (Hver0 : 0 <= u32 (hw (u32 base) 1)) by (apply (wrap_range 32); lia).
unfold valid_registers. change IOAPIC_REG_ID with 0. change IOAPIC_REG_VER with 1.
rewrite <- (id_check _ Hid0), <- (ver_check _ Hver0).
split; intros [H1 H2]; split.
- destruct (Z.eq_dec (Z.land (u32 (hw (u32 base) 0)) (Z.lnot IOAPIC_REG_ID_MASK_ID)) 0);
    [assumption | contradiction].
- destruct (Z.eq_dec (Z.land (Z.land (u32 (hw (u32 base) 1)) (Z.lnot IOAPIC_REG_VER_MASK_VER))
                             (Z.lnot IOAPIC_REG_VER_MASK_MAX_ENTRIES)) 0);
    [assumption | contradiction].
- intros H. contradiction.
- intros H. contradiction.
Qed.

(** ioapic_setup by cases on the registers. *)
Lemma setup_cases hw base w :
exists ret w' t,
  ioapic_setup hw base w = Some (ret, w')
  /\ mapped w' = (brk w, u32 base) :: mapped w
  /\ brk w' = brk w + PAGE_SIZE
  /\ log w' = log w ++ t
  /\ Forall no_proc_create t /\ Forall silent t
  /\ ((ret = 0 /\ valid_registers hw base
       /\ id (vars w') = bitfield (u32 (hw (u32 base) 0)) 24 4
       /\ version (vars w') = bitfield (u32 (hw (u32 base) 1)) 0 8
       /\ max_entries (vars w') = bitfield (u32 (hw (u32 base) 1)) 16 8)
      \/ (ret = - ENODEV /\ ~ valid_registers hw base
          /\ id (vars w') = id (vars w)
          /\ version (vars w') = version (vars w)
          /\ max_entries (vars w') = max_entries (vars w))).
Proof.
destruct (ioapic_setup_full hw base w)
  as (ret & w' & msgs & Hrun & Hm & Hb & Ha & Hl & Hmsgs & Hcase).
exists ret, w'. eexists. split; [exact Hrun |]. split; [exact Hm |]. split; [exact Hb |].
split; [exact Hl |].
destruct (setup_log_quiet hw (u32 base) (brk w) msgs Hmsgs) as [Hq1 Hq2].
split; [exact Hq1 |]. split; [exact Hq2 |].
rewrite valid_iff_masks.
destruct Hcase as [(Hret & Hid & Hver & Eid & Ever & Emax) | (Hret & Hbad & Eid & Ever & Emax)].
- left.
  change IOAPIC_REG_ID_MASK_ID with (Z.shiftl (Z.ones 4) 24) in Eid.
  change IOAPIC_REG_VER_MASK_VER with (Z.shiftl (Z.ones 8) 0) in Ever.
  change IOAPIC_REG_VER_MASK_MAX_ENTRIES with (Z.shiftl (Z.ones 8) 16) in Emax.
  rewrite masked_field in Eid, Ever, Emax by lia.
  repeat split; assumption.
- right. repeat split; try assumption. intros [H1 H2]. destruct Hbad; contradiction.
Qed.

Lemma decoded_fields_in_range (g : globals) x y :
id g = bitfield x 24 4 -> version g = bitfield y 0 8 -> max_entries g = bitfield y 16 8 ->
fields_in_range g.
Proof.
intros Ei Ev Em. unfold fields_in_range. rewrite Ei, Ev, Em.
pose proof (bitfield_range x 24 4 ltac:(lia)).
pose proof (bitfield_range y 0 8 ltac:(lia)).
pose proof (bitfield_range y 16 8 ltac:(lia)). lia.
Qed.

(** ioapic_init, in full. *)
Lemma init_full hw b0 b1 w :
exists ret w' t extra,
  ioapic_init hw b0 b1 w = Some (ret, w')
  /\ log w' = log w ++ t
  /\ mapped w' = extra ++ (brk w, u32 b0) :: mapped w
  /\ Forall silent t
  /\ (ret = 0 -> fields_in_range (vars w'))
  /\ ((ret = - ENODEV /\ ~ valid_registers hw b0
        /\ extra = [] /\ created t = [] /\ brk w' = brk w + PAGE_SIZE)
      \/ (ret = 0 /\ valid_registers hw b0 /\ b1 = 0
          /\ extra = [] /\ created t = ["ioapic0"%string] /\ brk w' = brk w + PAGE_SIZE)
      \/ (ret = - ENODEV /\ valid_registers hw b0 /\ b1 <> 0 /\ ~ valid_registers hw b1
          /\ extra = [(brk w + PAGE_SIZE, u32 b1)] /\ created t = []
          /\ brk w' = brk w + PAGE_SIZE + PAGE_SIZE)
      \/ (ret = 0 /\ valid_registers hw b0 /\ b1 <> 0 /\ valid_registers hw b1
          /\ extra = [(brk w + PAGE_SIZE, u32 b1)]
          /\ created t = ["ioapic0"%string; "ioapic1"%string]
          /\ brk w' = brk w + PAGE_SIZE + PAGE_SIZE)).
Proof.
unfold ioapic_init, bind at 1, mod_info, emit.
set (w0 := {| vars := _; mapped := _; brk := _; index_reg := _; log := _ |}).
unfold bind at 1.
destruct (setup_cases hw b0 w0)
  as (r0 & w1 & t0 & -> & Hm1 & Hb1 & Hl1 & Hc1 & Hs1 & Hcase1).
subst w0. cbn [vars mapped brk log] in *.
destruct Hcase1 as [(-> & Hv0 & Ei1 & Ev1 & Em1) | (-> & Hn0 & _)].
2:{ change (- ENODEV <? 0) with true. cbn iota. unfold ret.
    eexists _, _, (_ :: t0), []. split; [reflexivity |].
    split; [rewrite Hl1, <- app_assoc; reflexivity |].
    split; [exact Hm1 |].
    split; [constructor; [exact Logic.I | exact Hs1] |].
    split; [intros H; discriminate H |].
    left. repeat split; try assumption.
    cbn [created]. now apply created_none. }
change (0 <? 0) with false. cbn iota.
destruct (Z.eqb_spec b1 0) as [Hb | Hb]; cbn [negb].
- unfold bind, ret, proc_create, emit. cbn [vars mapped brk log].
  eexists _, _, (_ :: t0 ++ [_]), []. split; [reflexivity |].
  split; [rewrite Hl1; repeat (rewrite <- ?app_assoc; cbn [app]); reflexivity |].
  split; [exact Hm1 |].
  split.
  { constructor; [exact Logic.I |]. apply Forall_app. split; [exact Hs1 |].
    repeat constructor. }
  split; [intros _; eapply decoded_fields_in_range; eassumption |].
  right. left. repeat split; try assumption; try apply Hv0.
  cbn [created]. rewrite created_app, (created_none t0 Hc1). reflexivity.
- unfold bind at 1. unfold bind at 1, emit.
  set (w2 := {| vars := _; mapped := _; brk := _; index_reg := _; log := _ |}).
  destruct (setup_cases hw b1 w2)
    as (r1 & w3 & t1 & -> & Hm3 & Hb3 & Hl3 & Hc3 & Hs3 & Hcase3).
  subst w2. cbn [vars mapped brk log] in *.
  destruct Hcase3 as [(-> & Hv1 & Ei3 & Ev3 & Em3) | (-> & Hn1 & _)].
  + change (0 <? 0) with false. cbn iota.
    unfold bind, ret, proc_create, emit. cbn [vars mapped brk log].
    eexists _, _, (_ :: t0 ++ _ :: t1 ++ [_; _]), [_]. split; [reflexivity |].
    split; [rewrite Hl3, Hl1; repeat (rewrite <- ?app_assoc; cbn [app]); reflexivity |].
    split; [rewrite Hm3, Hm1, Hb1; reflexivity |].
    split.
    { constructor; [exact Logic.I |]. apply Forall_app. split; [exact Hs1 |].
      constructor; [exact Logic.I |]. apply Forall_app. split; [exact Hs3 |].
      repeat constructor. }
    split; [intros _; eapply decoded_fields_in_range; eassumption |].
    right. right. right. repeat split; try assumption; try apply Hv0; try apply Hv1.
    * cbn [created]. rewrite created_app, (created_none t0 Hc1). cbn [app created].
      rewrite created_app, (created_none t1 Hc3). reflexivity.
    * rewrite Hb3, Hb1. reflexivity.
  + change (- ENODEV <? 0) with true. cbn iota. unfold ret.
    eexists _, _, (_ :: t0 ++ _ :: t1), [_]. split; [reflexivity |].
    split; [rewrite Hl3, Hl1; repeat (rewrite <- ?app_assoc; cbn [app]); reflexivity |].
    split; [rewrite Hm3, Hm1, Hb1; reflexivity |].
    split.
    { constructor; [exact Logic.I |]. apply Forall_app. split; [exact Hs1 |].
      constructor; [exact Logic.I | exact Hs3]. }
    split; [intros H; discriminate H |].
    right. right. left. repeat split; try assumption; try apply Hv0.
    * cbn [created]. rewrite created_app, (created_none t0 Hc1). cbn [app created].
      now apply created_none.
    * rewrite Hb3, Hb1. reflexivity.
Qed.

(** X9.  ioapic_init returns 0 or -ENODEV, and 0 exactly when the primary
    controller passes the validation and, if a secondary base is
    configured, the secondary does too.  It creates the proc files only
    then: "ioapic0", and "ioapic1" exactly when the secondary base is not
    0; on failure it creates none.  It renders no report and releases no
    window: each window it mapped, one or two, stays mapped. *)
Theorem init_outcomes (hw : Z -> Z -> Z) (ioapic0_base ioapic1_base : Z) (w : world) :
exists ret w' t,
  ioapic_init hw ioapic0_base ioapic1_base w = Some (ret, w')
  /\ log w' = log w ++ t
  /\ (ret = 0 \/ ret = - ENODEV)
  /\ (ret = 0 <->
      valid_registers hw ioapic0_base
      /\ (ioapic1_base <> 0 -> valid_registers hw ioapic1_base))
  /\ created t
     = (if ret =? 0
        then "ioapic0"%string :: (if ioapic1_base =? 0 then [] else ["ioapic1"%string])
        else [])
  /\ seq_text t = EmptyString
  /\ unmapped t = []
  /\ (List.length (mapped w) < List.length (mapped w'))%nat.
Proof.
destruct (init_full hw ioapic0_base ioapic1_base w)
  as (ret & w' & t & extra & Hrun & Hl & Hm & Hs & _ & Hcase).
exists ret, w', t. split; [exact Hrun |]. split; [exact Hl |].
destruct (silent_text t Hs) as [Htext Hunmap].
assert (Hlen : (List.length (mapped w) < List.length (mapped w'))%nat)
  by (rewrite Hm, length_app; cbn; lia).
change (- ENODEV) with (-19) in *.
destruct Hcase as [(-> & Hn0 & _ & Hc & _)
                  | [(-> & Hv0 & Hb & _ & Hc & _)
                    | [(-> & Hv0 & Hb & Hn1 & _ & Hc & _)
                      | (-> & Hv0 & Hb & Hv1 & _ & Hc & _)]]];
  (split; [auto |]); (split; [| split; [| auto]]).
- split; [intros H; discriminate H | intros [H _]; exfalso; apply Hn0, H].
- exact Hc.
- split; [intros _; split; [exact Hv0 | intros H; contradiction] | reflexivity].
- rewrite Hc. cbn. destruct (Z.eqb_spec ioapic1_base 0); [reflexivity | contradiction].
- split; [intros H; discriminate H | intros [_ H]; exfalso; apply Hn1, H, Hb].
- exact Hc.
- split; [intros _; split; [exact Hv0 | intros _; exact Hv1] | reflexivity].
- rewrite Hc. cbn. destruct (Z.eqb_spec ioapic1_base 0); [contradiction | reflexivity].
Qed.

(** X10.  What ioapic_exit removes is what a successful ioapic_init
    created: "ioapic0", and "ioapic1" exactly when the secondary base is
    configured; it removes no file that was not created and leaves none
    behind. *)
Theorem exit_removes_what_init_created
        (hw : Z -> Z -> Z) (ioapic0_base ioapic1_base : Z) (w w' : world) :
ioapic_init hw ioapic0_base ioapic1_base w = Some (0, w') ->
exists t, log w' = log w ++ t /\ created t = removed (ioapic_exit ioapic1_base).
Proof.
intros Hinit.
destruct (init_full hw ioapic0_base ioapic1_base w)
  as (ret & w1 & t & extra & Hrun & Hl & _ & _ & _ & Hcase).
rewrite Hinit in Hrun. injection Hrun as <- <-.
exists t. split; [exact Hl |].
change (- ENODEV) with (-19) in *. unfold ioapic_exit.
destruct Hcase as [(Hr & _) | [(_ & _ & Hb & _ & Hc & _)
                              | [(Hr & _) | (_ & _ & Hb & _ & _ & Hc & _)]]];
  try discriminate Hr; rewrite Hc; cbn [removed];
  destruct (Z.eqb_spec ioapic1_base 0); try contradiction; reflexivity.
Qed.

Lemma exit_removes_what_init_created_witness :
ioapic_init hw_24 0xFEC00000 0xFEC10000 boot
= Some (0, world_after_init hw_24 0xFEC00000 0xFEC10000)
/\ exists t, log (world_after_init hw_24 0xFEC00000 0xFEC10000) = log boot ++ t
             /\ created t = removed (ioapic_exit 0xFEC10000).
Proof.
split; [vm_compute; reflexivity |].
apply (exit_removes_what_init_created hw_24 0xFEC00000 0xFEC10000 boot).
vm_compute. reflexivity.
Defined.







End IoapicMore.

(** ** More on the MP configuration table *)

Module MpMore.
Import CInt Mem Printf Kernel Mp Util MpSpec MpExtra Unload.
Import BitFacts UtilFacts UtilMore PrintfFacts MpFacts.

Lemma dumped_app t1 t2 : dumped (t1 ++ t2) = dumped t1 ++ dumped t2.
Proof.
induction t1 as [| e t1 IH]; [reflexivity |].
destruct e as [fmt args | | | | | | |]; cbn [app dumped]; try exact IH.
destruct args as [| [v | s | c] [| a args]]; try exact IH.
destruct (String.eqb fmt " %02X"); cbn [app]; now rewrite IH.
Qed.

Lemma dump_block_dumped mem ptr limit (k : nat) : forall pos,
Z.to_nat (limit - pos) = k ->
dumped (dump_block mem ptr limit pos) = bytes_at mem ptr pos k.
Proof.
induction k as [| k IH]; intros pos Hk; rewrite dump_block_step.
- destruct (Z_lt_dec pos limit); [lia | reflexivity].
- destruct (Z_lt_dec pos limit); [| lia].
  rewrite dumped_app. unfold bytes_at in *.
  destruct (Z.rem pos 4 =? 0); cbn [dumped app zrange map];
    change (String.eqb " %02X" " %02X") with true; cbn iota;
    rewrite ?IH by lia; reflexivity.
Qed.

Lemma dump_entry_dumped mem mpct pos n (k : nat) : forall byte,
Z.to_nat (n - byte) = k ->
dumped (dump_entry mem mpct pos n byte) = bytes_at mem mpct (pos + byte) k
/\ loads (dump_entry mem mpct pos n byte) = map (fun j => mpct + j) (zrange (pos + byte) k).
Proof.
induction k as [| k IH]; intros byte Hk; rewrite dump_entry_step.
- destruct (Z_lt_dec byte n); [lia | split; reflexivity].
- destruct (Z_lt_dec byte n); [| lia].
  destruct (IH (byte + 1) ltac:(lia)) as [IHd IHl].
  unfold bytes_at in *. cbn [dumped loads zrange map].
  change (String.eqb " %02X" " %02X") with true. cbn iota.
  rewrite IHd, IHl. replace (pos + (byte + 1)) with (pos + byte + 1) by lia.
  split; reflexivity.
Qed.

(** The walk from [pos]: the bytes it prints are consecutive, it reads
    nothing else, and it overruns the declared size by less than one
    processor entry. *)
Lemma mp_walk_dump mem mpct size (k : nat) : forall pos,
Z.to_nat (size - pos) = k ->
exists n : nat,
  dumped (mp_walk mem mpct size pos) = bytes_at mem mpct pos n
  /\ Forall (fun a => mpct + pos <= a < mpct + pos + Z.of_nat n)
            (loads (mp_walk mem mpct size pos))
  /\ (size <= pos -> n = 0%nat)
  /\ (pos < size -> size <= pos + Z.of_nat n < size + 20).
Proof.
induction k as [k IH] using lt_wf_ind. intros pos Hk. rewrite mp_walk_step.
destruct (Z_lt_dec pos size) as [Hlt | Hge].
- pose proof (entry_bytes_at_cases mem mpct pos) as Hn.
  set (e := entry_bytes_at mem mpct pos) in *.
  assert (He : 8 <= e <= 20) by (rewrite Hn; destruct (_ =? _); lia).
  destruct (IH (Z.to_nat (size - (pos + e))) ltac:(lia) (pos + e) eq_refl)
    as (n & Hd & Hl & Hzero & Hover).
  destruct (dump_entry_dumped mem mpct pos e (Z.to_nat e) 0 ltac:(f_equal; lia))
    as [Hed Hel].
  rewrite Z.add_0_r in Hed, Hel.
  exists (Z.to_nat e + n)%nat. split; [| split; [| split]].
  + cbn [dumped]. rewrite dumped_app, Hed, Hd. unfold bytes_at.
    rewrite zrange_app, map_app.
    replace (pos + Z.of_nat (Z.to_nat e)) with (pos + e) by lia. reflexivity.
  + cbn [loads]. constructor; [lia |].
    rewrite loads_app, Hel. apply Forall_app. split.
    * apply Forall_forall. intros a Hin. apply in_map_iff in Hin.
      destruct Hin as (j & <- & Hj). apply zrange_in in Hj. lia.
    * eapply Forall_impl; [| exact Hl]. cbn beta. intros a Ha. lia.
  + lia.
  + intros _. destruct (Z_lt_dec (pos + e) size) as [Hmore | Hdone].
    * specialize (Hover Hmore). lia.
    * rewrite (Hzero ltac:(lia)). lia.
- exists 0%nat. repeat split; try constructor; lia.
Qed.

(** The trace of mp_show, part by part. *)
Lemma mp_show_shape mem g :
snd (mp_show mem g)
= [SeqPrintf (NL ++ "MP Floating Pointer Structure:" ++ NL) []]
  ++ dump_block mem (mpfp g) MPFP_STRUCTURE_BYTES 0
  ++ [SeqPrintf NL []; SeqPrintf (NL ++ "MP Configuration Table Header:" ++ NL) []]
  ++ dump_block mem (mpct g) MPCT_HEADER_BYTES 0
  ++ [SeqPrintf NL []; SeqPrintf (NL ++ "Base MP Configuration Table:" ++ NL) []]
  ++ mp_walk mem (mpct g) (base_mpct_bytes g) MPCT_HEADER_BYTES
  ++ [SeqPrintf NL []].
Proof. reflexivity. Qed.

(** X12.  mp_show prints the 16 bytes at [mpfp] and then the bytes at
    [mpct] from offset 0 on, every byte once and in order, up to where the
    walk over the base table ends.  With a declared size of at most 44
    that is the header alone; otherwise the dump ends at or after the
    declared size and less than 20 bytes beyond it (the last entry is
    printed whole even when the declared size cuts it). *)
Theorem mp_show_dumps (mem : memory) (g : globals) :
exists n : nat,
  dumped (snd (mp_show mem g))
  = bytes_at mem (mpfp g) 0 16 ++ bytes_at mem (mpct g) 0 (44 + n)
  /\ (base_mpct_bytes g <= MPCT_HEADER_BYTES -> n = 0%nat)
  /\ (MPCT_HEADER_BYTES < base_mpct_bytes g ->
      base_mpct_bytes g <= MPCT_HEADER_BYTES + Z.of_nat n < base_mpct_bytes g + 20).
Proof.
destruct (mp_walk_dump mem (mpct g) (base_mpct_bytes g) _ MPCT_HEADER_BYTES eq_refl)
  as (n & Hd & _ & Hzero & Hover).
exists n. split; [| split; assumption].
rewrite mp_show_shape, !dumped_app, Hd.
rewrite (dump_block_dumped mem (mpfp g) MPFP_STRUCTURE_BYTES 16 0) by reflexivity.
rewrite (dump_block_dumped mem (mpct g) MPCT_HEADER_BYTES 44 0) by reflexivity.
change (dumped [SeqPrintf (NL ++ "MP Floating Pointer Structure:" ++ NL) []]) with (@nil Z).
change (dumped [SeqPrintf NL []; SeqPrintf (NL ++ "MP Configuration Table Header:" ++ NL) []])
  with (@nil Z).
change (dumped [SeqPrintf NL []; SeqPrintf (NL ++ "Base MP Configuration Table:" ++ NL) []])
  with (@nil Z).
change (dumped [SeqPrintf NL []]) with (@nil Z).
cbn [app]. rewrite app_nil_r. unfold bytes_at. rewrite (zrange_app 44 n), map_app.
reflexivity.
Qed.

(** X13.  Every byte mp_show reads lies in the 16 bytes at [mpfp] or at
    [mpct] below offset 44 or, when the declared size is larger, below the
    declared size plus 19: the walk never reads further than that. *)
Theorem mp_show_reads_bounded (mem : memory) (g : globals) :
Forall (fun a => mpfp g <= a < mpfp g + MPFP_STRUCTURE_BYTES
                 \/ mpct g <= a < mpct g + Z.max MPCT_HEADER_BYTES (base_mpct_bytes g + 19))
       (loads (snd (mp_show mem g))).
Proof.
destruct (mp_walk_dump mem (mpct g) (base_mpct_bytes g) _ MPCT_HEADER_BYTES eq_refl)
  as (n & _ & Hl & Hzero & Hover).
rewrite mp_show_shape, !loads_app.
rewrite (dump_block_loads mem (mpfp g) MPFP_STRUCTURE_BYTES 16 0) by reflexivity.
rewrite (dump_block_loads mem (mpct g) MPCT_HEADER_BYTES 44 0) by reflexivity.
change (loads [SeqPrintf (NL ++ "MP Floating Pointer Structure:" ++ NL) []]) with (@nil Z).
change (loads [SeqPrintf NL []; SeqPrintf (NL ++ "MP Configuration Table Header:" ++ NL) []])
  with (@nil Z).
change (loads [SeqPrintf NL []; SeqPrintf (NL ++ "Base MP Configuration Table:" ++ NL) []])
  with (@nil Z).
change (loads [SeqPrintf NL []]) with (@nil Z).
cbn [app]. rewrite app_nil_r.
unfold MPFP_STRUCTURE_BYTES, MPCT_HEADER_BYTES in *.
apply Forall_app. split; [| apply Forall_app; split].
- apply Forall_forall. intros a Hin. apply in_map_iff in Hin.
  destruct Hin as (j & <- & Hj). apply zrange_in in Hj. left. lia.
- apply Forall_forall. intros a Hin. apply in_map_iff in Hin.
  destruct Hin as (j & <- & Hj). apply zrange_in in Hj. right. lia.
- eapply Forall_impl; [| exact Hl]. cbn beta. intros a Ha. right.
  destruct (Z_le_dec (base_mpct_bytes g) 44) as [Hs | Hs].
  + rewrite (Hzero Hs) in Ha. lia.
  + specialize (Hover ltac:(lia)). lia.
Qed.

Lemma created_printk t :
Forall (fun e => exists l f, e = Printk l f) t -> created t = [] /\ seq_text t = EmptyString.
Proof.
induction 1 as [| e t (l & f & ->) _ IH]; [split; reflexivity | exact IH].
Qed.

Lemma created_snoc t e : created (t ++ [e]) = created t ++ created [e].
Proof.
induction t as [| x t IH]; [reflexivity |].
destruct x; cbn [app created]; rewrite IH; reflexivity.
Qed.

Lemma seq_text_snoc_proc t n : seq_text (t ++ [ProcCreate n]) = seq_text t.
Proof.
induction t as [| x t IH]; [reflexivity |].
destruct x; cbn [app seq_text]; rewrite IH; reflexivity.
Qed.

Section SetupOutcomes.
Variable p2v : Z -> Z.
Variable mem : memory.

(** The log of mp_setup holds kernel messages only. *)
Lemma mp_setup_log g :
Forall (fun e => exists l f, e = Printk l f) (snd (mp_setup p2v mem g)).
Proof.
unfold mp_setup.
destruct (mp_scan p2v mem 0xFFFFF (mpfp g) 0xF0000) as [x y].
destruct (x =? 0x100000); [| destruct (negb _)]; cbn;
  repeat constructor; eauto.
Qed.

(** X14.  mp_setup returns 0 or -ENODEV.  It returns 0 exactly when some
    visited address carries "_MP_" and the table the first such structure
    points to starts with "PCMP"; every failure is the not-found error or
    the signature error.  On success the size it stores is below 65536; on
    failure the stored size is left as it was.  It renders nothing and
    creates no proc file. *)
Theorem mp_setup_outcomes (g : globals) :
(fst (fst (mp_setup p2v mem g)) = 0 \/ fst (fst (mp_setup p2v mem g)) = - ENODEV)
/\ (fst (fst (mp_setup p2v mem g)) = 0 <->
    exists a, first_match p2v mem a
              /\ has_signature mem (second_table p2v mem a) "PCMP")
/\ (fst (fst (mp_setup p2v mem g)) = - ENODEV <->
    not_found (mp_setup p2v mem g) \/ invalid_signature (mp_setup p2v mem g))
/\ (fst (fst (mp_setup p2v mem g)) = 0 ->
    0 <= base_mpct_bytes (snd (fst (mp_setup p2v mem g))) < 65536)
/\ (fst (fst (mp_setup p2v mem g)) <> 0 ->
    base_mpct_bytes (snd (fst (mp_setup p2v mem g))) = base_mpct_bytes g)
/\ seq_text (snd (mp_setup p2v mem g)) = EmptyString
/\ created (snd (mp_setup p2v mem g)) = [].
Proof.
destruct (created_printk _ (mp_setup_log g)) as [Hcreated Htext].
assert (Hmain :
  (fst (fst (mp_setup p2v mem g)) = 0 \/ fst (fst (mp_setup p2v mem g)) = - ENODEV)
  /\ (fst (fst (mp_setup p2v mem g)) = 0 <->
      exists a, first_match p2v mem a
                /\ has_signature mem (second_table p2v mem a) "PCMP")
  /\ (fst (fst (mp_setup p2v mem g)) = - ENODEV <->
      not_found (mp_setup p2v mem g) \/ invalid_signature (mp_setup p2v mem g))
  /\ (fst (fst (mp_setup p2v mem g)) = 0 ->
      0 <= base_mpct_bytes (snd (fst (mp_setup p2v mem g))) < 65536)
  /\ (fst (fst (mp_setup p2v mem g)) <> 0 ->
      base_mpct_bytes (snd (fst (mp_setup p2v mem g))) = base_mpct_bytes g)).
{ unfold not_found, invalid_signature, mp_setup.
  change (- ENODEV) with (-19).
  destruct (mp_scan_result p2v mem (mpfp g)) as [(Hend & Hnone) | (Hfm & Hptr)].
  - destruct (mp_scan p2v mem 0xFFFFF (mpfp g) 0xF0000) as [x y]. cbn [fst snd] in *.
    subst x. cbn.
    split; [now right |]. split; [| split; [| split]].
    + split; [intros H; discriminate H |].
      intros (a & (Hc & Hm & _) & _). exfalso. exact (Hnone a Hc Hm).
    + split; [intros _; left; split; reflexivity | reflexivity].
    + intros H; discriminate H.
    + reflexivity.
  - destruct (mp_scan p2v mem 0xFFFFF (mpfp g) 0xF0000) as [x y]. cbn [fst snd] in *.
    subst y.
    pose proof (candidate_in_window _ (proj1 Hfm)) as Hwin.
    destruct (Z.eqb_spec x 0x100000) as [-> | _]; [lia |].
    change (p2v (load32 mem (p2v x + MPFP_SIGNATURE_BYTES))) with (second_table p2v mem x).
    destruct (load32 mem (second_table p2v mem x) =? MPCT_SIGNATURE) eqn:Hsig; cbn [negb].
    + apply mpct_signature_test in Hsig. cbn [fst snd base_mpct_bytes].
      split; [now left |]. split; [| split; [| split]].
      * split; [intros _; exists x; split; assumption | reflexivity].
      * split; [intros H; discriminate H |].
        intros [(H & _) | (H & _)]; discriminate H.
      * intros _. apply (wrap_range 16). lia.
      * intros H. contradiction.
    + assert (Hno : ~ has_signature mem (second_table p2v mem x) "PCMP").
      { intros H. apply mpct_signature_test in H. congruence. }
      cbn [fst snd base_mpct_bytes].
      split; [now right |]. split; [| split; [| split]].
      * split; [intros H; discriminate H |].
        intros (a & Hfa & Hsa).
        rewrite (first_match_unique p2v mem a x Hfa Hfm) in Hsa. contradiction.
      * split; [| reflexivity]. intros _. right. split; [reflexivity |].
        eexists. reflexivity.
      * intros H; discriminate H.
      * reflexivity. }
destruct Hmain as (H1 & H2 & H3 & H4 & H5).
split; [exact H1 |]. split; [exact H2 |]. split; [exact H3 |].
split; [exact H4 |]. split; [exact H5 |]. split; [exact Htext | exact Hcreated].
Qed.

(** X15.  mp_init passes on what mp_setup returns and leaves the globals
    as mp_setup set them.  It creates the proc file "mp", the one mp_exit
    removes, exactly when mp_setup returned 0; when mp_setup failed no
    file exists.  Loading renders no report. *)
Theorem mp_init_gates_proc_file (g : globals) :
fst (fst (mp_init p2v mem g)) = fst (fst (mp_setup p2v mem g))
/\ snd (fst (mp_init p2v mem g)) = snd (fst (mp_setup p2v mem g))
/\ created (snd (mp_init p2v mem g))
   = (if fst (fst (mp_setup p2v mem g)) =? 0 then removed mp_exit else [])
/\ seq_text (snd (mp_init p2v mem g)) = EmptyString.
Proof.
destruct (created_printk _ (mp_setup_log g)) as [Hcreated Htext].
assert (Hret : fst (fst (mp_setup p2v mem g)) = 0
               \/ fst (fst (mp_setup p2v mem g)) = - ENODEV).
{ unfold mp_setup.
  destruct (mp_scan p2v mem 0xFFFFF (mpfp g) 0xF0000) as [x y].
  destruct (x =? 0x100000); [| destruct (negb _)]; cbn; auto. }
unfold mp_init.
destruct (mp_setup p2v mem g) as [[ret g1] t]. cbn [fst snd] in *.
change (- ENODEV) with (-19) in Hret.
destruct Hret as [-> | ->]; cbn [Z.ltb Z.eqb Z.compare fst snd].
- repeat split.
  + cbn [created]. rewrite created_snoc, Hcreated. reflexivity.
  + cbn [seq_text]. rewrite seq_text_snoc_proc. exact Htext.
- repeat split.
  + cbn [created]. exact Hcreated.
  + cbn [seq_text]. exact Htext.
Qed.

End SetupOutcomes.

End MpMore.
